(** * agent-memcp: a shallow embedding of the semantic memory store

    Sources: [src/src/embedding.ts] (cosineSimilarity, EmbeddingService),
    [src/src/storage/sqlite-backend.ts] (SqliteBackend and its BLOB
    encoding of embeddings), the tool layer
    [src/src/tools/retrieve.ts] (input validation of retrieve_memories) and
    the type declarations of [types.ts].

    The SQLite table [memories] is modelled as the list of its rows in table
    (rowid) order.  The embedding model is an external collaborator: it is a
    parameter [embed : string -> option vec] ([None] = the model failed). *)

From Stdlib Require Import ZArith QArith List String Ascii Bool Lia.
From Stdlib Require Import Sorting.Permutation Sorting.Sorted.
From Stdlib Require Import Floats.SpecFloat.
Import ListNotations.

(* ------------------------------------------------------------------ *)
(** ** embedding.ts : IEEE binary64 arithmetic and cosineSimilarity *)

Module Embedding.

(** A JS number: an IEEE-754 binary64 value (SpecFloat, precision 53,
    emax 1024), with the operations rounding to nearest-even as in JS. *)
Definition double := spec_float.
Definition fadd : double -> double -> double := SFadd 53 1024.
Definition fmul : double -> double -> double := SFmul 53 1024.
Definition fdiv : double -> double -> double := SFdiv 53 1024.
Definition fsqrt : double -> double := SFsqrt 53 1024.
Definition fzero : double := S754_zero false.
Definition fone : double := SFone 53 1024.

(** A Float32Array: its elements read as JS numbers.  Reading past the end
    yields [undefined], which arithmetic turns into NaN. *)
Definition vec := list double.

(** The body of the [for] loop of cosineSimilarity, iterating over the
    indices of [a]; [b[i]] is read by index. *)
Fixpoint cos_loop (a b : vec) (i : nat) (dot normA normB : double)
  : double * double * double :=
  match a with
  | [] => (dot, normA, normB)
  | ai :: a' =>
      let bi := nth i b S754_nan in
      cos_loop a' b (S i) (fadd dot (fmul ai bi))
               (fadd normA (fmul ai ai)) (fadd normB (fmul bi bi))
  end.

(** [denom === 0] holds for both signed zeros. *)
Definition is_zero (x : double) : bool :=
  match x with S754_zero _ => true | _ => false end.

Definition cosineSimilarity (a b : vec) : double :=
  let '(dot, normA, normB) := cos_loop a b 0 fzero fzero fzero in
  let denom := fmul (fsqrt normA) (fsqrt normB) in
  if is_zero denom then fzero else fdiv dot denom.

(** The exact rational value of a finite double (non-finite values, which
    need non-finite vector components, are sent to 0). *)
Definition SF2Q (x : double) : Q :=
  match x with
  | S754_finite s m e =>
      let q := match e with
               | Z0 => inject_Z (Zpos m)
               | Zpos p => inject_Z (Zpos m * 2 ^ Zpos p)
               | Zneg p => Zpos m # (2 ^ p)
               end in
      if s then Qopp q else q
  | _ => 0
  end.

(** The key of the ranking sort: the comparator [b.score - a.score] has the
    sign of the exact difference of the two finite doubles. *)
Definition cosine_score (a b : vec) : Q := SF2Q (cosineSimilarity a b).

End Embedding.
Import Embedding.

(* ------------------------------------------------------------------ *)
(** ** Data model *)

(** [interface MemoryRow]: one row of the [memories] table.  [tags] is the
    JSON array of the column, [embedding] the BLOB (or NULL). *)
Record MemoryRow := {
  id : string;
  scope : string;
  key : option string;
  content : string;
  tags : list string;
  embedding : option vec;
  created_at : string;
  updated_at : string
}.

(** [interface MemoryEntry] (types.ts). *)
Record MemoryEntry := {
  entry_id : string;
  entry_key : option string;
  entry_content : string;
  entry_tags : list string;
  createdAt : string;
  updatedAt : string
}.

(** The [entry] argument of [store]: [Omit<MemoryEntry, ...> & { id }]. *)
Record NewEntry := {
  new_id : string;
  new_key : option string;
  new_content : string;
  new_tags : list string
}.

(** [type Scope = string | undefined | null]. *)
Definition Scope := option string.

Definition Table := list MemoryRow.

Inductive error :=
| ModelUnavailable            (* the embedding service failed *)
| ConstraintViolation         (* INSERT with an id already in the table *)
| ProjectExists (name : string) (* renameProject: Project "..." already exists *)
| InvalidInput.               (* rejected by the tool's input schema *)

Inductive result (A : Type) :=
| Ok (a : A)
| Err (e : error).
Arguments Ok {A} a.
Arguments Err {A} e.

(* ------------------------------------------------------------------ *)
(** ** Helpers of sqlite-backend.ts *)

(** [normaliseScope]: [!scope] holds for null, undefined and the empty string. *)
Definition normaliseScope (s : Scope) : string :=
  match s with
  | None => "global"
  | Some EmptyString => "global"
  | Some x => x
  end.

(** The test [scope === "*"] made on the raw scope. *)
Definition is_wildcard (s : Scope) : bool :=
  match s with Some "*"%string => true | _ => false end.

(** SQLite's built-in [lower()]: it folds the ASCII letters only. *)
Definition lower_ascii (c : ascii) : ascii :=
  let n := nat_of_ascii c in
  if (65 <=? n)%nat && (n <=? 90)%nat then ascii_of_nat (n + 32) else c.

Fixpoint lower (s : string) : string :=
  match s with
  | EmptyString => EmptyString
  | String c s' => String (lower_ascii c) (lower s')
  end.

Definition rowToEntry (row : MemoryRow) : MemoryEntry := {|
  entry_id := row.(id);
  entry_key := row.(key);
  entry_content := row.(content);
  entry_tags := row.(tags);
  createdAt := row.(created_at);
  updatedAt := row.(updated_at)
|}.

(** JS [String.prototype.toLowerCase], the Unicode case mapping, which
    [hasAllTags] applies to the tags.  It is left abstract: what is proved
    about the tag filter holds for every case mapping. *)
Class ToLowerCase := toLowerCase : string -> string.

Definition hasAllTags `{ToLowerCase} (entryTags filterTags : list string) : bool :=
  match filterTags with
  | [] => true
  | _ =>
      let lw := map toLowerCase entryTags in
      forallb (fun t => existsb (String.eqb (toLowerCase t)) lw) filterTags
  end.

(** A stable insertion sort: [before x y] says that [x] may be placed
    before [y]; elements of equal rank keep their input order. *)
Section StableSort.
Context {A : Type} (before : A -> A -> bool).

Fixpoint insert_stable (x : A) (l : list A) : list A :=
  match l with
  | [] => [x]
  | y :: l' => if before x y then x :: l else y :: insert_stable x l'
  end.

Fixpoint stable_sort (l : list A) : list A :=
  match l with
  | [] => []
  | x :: l' => insert_stable x (stable_sort l')
  end.
End StableSort.

(** [ORDER BY updated_at DESC]: TEXT columns compare bytewise; rows with
    equal [updated_at] are left in scan (table) order. *)
Definition order_by_updated_desc (rows : Table) : Table :=
  stable_sort (fun x y => String.leb y.(updated_at) x.(updated_at)) rows.

(** The candidate query shared by [retrieve] and [list]. *)
Definition fetch (sc : Scope) (st : Table) : Table :=
  if is_wildcard sc then order_by_updated_desc st
  else order_by_updated_desc
         (filter (fun r => String.eqb r.(scope) (normaliseScope sc)) st).

(** [SELECT COUNT( * ) FROM memories WHERE scope = ?]. *)
Definition count_scope (s : string) (st : Table) : nat :=
  List.length (filter (fun r => String.eqb r.(scope) s) st).

(** [Array.prototype.slice(0, limit)] for an integer [limit]. *)
Definition slice0 {A} (l : list A) (limit : Z) : list A :=
  if (limit <? 0)%Z then firstn (List.length l - Z.to_nat (- limit)) l
  else firstn (Z.to_nat limit) l.

(** [lower(key) = lower(?)]: a NULL key never matches. *)
Definition key_matches (k : option string) (k' : string) : bool :=
  match k with
  | None => false
  | Some k0 => String.eqb (lower k0) (lower k')
  end.

(** JS truthiness of [entry.key]. *)
Definition key_truthy (k : option string) : option string :=
  match k with
  | None => None
  | Some EmptyString => None
  | Some k0 => Some k0
  end.

(* ------------------------------------------------------------------ *)
(** ** SqliteBackend *)

Section SqliteBackend.
(** [embeddingService.embed]: [None] when the model cannot be loaded. *)
Variable embed : string -> option vec.
(** The case mapping of the tag filter. *)
Context `{TL : ToLowerCase}.

(** The row after [UPDATE memories SET key = ?, content = ?, tags = ?,
    embedding = ?, updated_at = ? WHERE id = ?]. *)
Definition updated_row (r : MemoryRow) (k : string) (entry : NewEntry)
    (v : vec) (now : string) : MemoryRow := {|
  id := r.(id); scope := r.(scope); key := Some k;
  content := entry.(new_content); tags := entry.(new_tags);
  embedding := Some v; created_at := r.(created_at); updated_at := now
|}.

(** [SELECT * FROM memories WHERE scope = ? AND lower(key) = lower(?)]:
    the first matching row in scan order. *)
Definition find_by_key (st : Table) (scopeStr k : string) : option MemoryRow :=
  find (fun r => String.eqb r.(scope) scopeStr && key_matches r.(key) k) st.

(** [store]; [now] is [new Date().toISOString()]. *)
Definition store (st : Table) (sc : Scope) (entry : NewEntry) (now : string)
  : Table * result MemoryEntry :=
  let scopeStr := normaliseScope sc in
  match embed entry.(new_content) with
  | None => (st, Err ModelUnavailable)
  | Some v =>
      let existing :=
        match key_truthy entry.(new_key) with
        | Some k => option_map (fun ex => (k, ex)) (find_by_key st scopeStr k)
        | None => None
        end in
      match existing with
      | Some (k, ex) =>
          (map (fun r => if String.eqb r.(id) ex.(id)
                         then updated_row r k entry v now else r) st,
           Ok (rowToEntry (updated_row ex k entry v now)))
      | None =>
          if existsb (fun r => String.eqb r.(id) entry.(new_id)) st
          then (st, Err ConstraintViolation)
          else (st ++ [{| id := entry.(new_id); scope := scopeStr;
                          key := entry.(new_key); content := entry.(new_content);
                          tags := entry.(new_tags); embedding := Some v;
                          created_at := now; updated_at := now |}],
                Ok {| entry_id := entry.(new_id); entry_key := entry.(new_key);
                      entry_content := entry.(new_content);
                      entry_tags := entry.(new_tags);
                      createdAt := now; updatedAt := now |})
      end
  end.

(** The [for (const row of rows)] loop of [retrieve]: tag filter, skip of
    rows without an embedding, scoring against the query vector. *)
Fixpoint score_rows (queryVec : vec) (filterTags : list string) (rows : Table)
  : list (MemoryRow * Q) :=
  match rows with
  | [] => []
  | row :: rest =>
      if negb (hasAllTags row.(tags) filterTags)
      then score_rows queryVec filterTags rest
      else match row.(embedding) with
           | None => score_rows queryVec filterTags rest
           | Some entryVec =>
               (row, cosine_score queryVec entryVec)
                 :: score_rows queryVec filterTags rest
           end
  end.

(** [scored.sort((a, b) => b.score - a.score)]: a stable sort, descending. *)
Definition by_score_desc (scored : list (MemoryRow * Q)) : list (MemoryRow * Q) :=
  stable_sort (fun a b => Qle_bool (snd b) (snd a)) scored.

(** The ranked rows of [retrieve], before [.map((s) => s.entry)]. *)
Definition ranked (queryVec : vec) (st : Table) (sc : Scope)
    (filterTags : list string) (lim : Z) : list (MemoryRow * Q) :=
  slice0 (by_score_desc (score_rows queryVec filterTags (fetch sc st))) lim.

Definition retrieve (st : Table) (sc : Scope) (query : string)
    (filterTags : list string) (limit : option Z) : result (list MemoryEntry) :=
  let lim := match limit with None => 20%Z | Some n => n end in
  match embed query with
  | None => Err ModelUnavailable
  | Some queryVec =>
      Ok (map (fun s => rowToEntry (fst s)) (ranked queryVec st sc filterTags lim))
  end.

(** [list] (a reserved name in Rocq, hence the underscore). *)
Definition list_ (st : Table) (sc : Scope) (filterTags : list string)
  : list MemoryEntry :=
  let rows := fetch sc st in
  match filterTags with
  | [] => map rowToEntry rows
  | _ => map rowToEntry (filter (fun row => hasAllTags row.(tags) filterTags) rows)
  end.

(** [DELETE FROM memories WHERE scope = ? AND id = ?]; [changes > 0]. *)
Definition delete (st : Table) (sc : Scope) (i : string) : Table * result bool :=
  let scopeStr := normaliseScope sc in
  let kept := filter (fun r => negb (String.eqb r.(scope) scopeStr
                                     && String.eqb r.(id) i)) st in
  (kept, Ok (List.length kept <? List.length st)%nat).

Definition with_scope (r : MemoryRow) (s : string) : MemoryRow := {|
  id := r.(id); scope := s; key := r.(key); content := r.(content);
  tags := r.(tags); embedding := r.(embedding);
  created_at := r.(created_at); updated_at := r.(updated_at)
|}.

(** [UPDATE memories SET scope = ? WHERE scope = ?], on one row. *)
Definition move_scope (oldName newName : string) (r : MemoryRow) : MemoryRow :=
  if String.eqb r.(scope) oldName then with_scope r newName else r.

(** [renameProject]; the throw is [Err (ProjectExists newName)]. *)
Definition renameProject (st : Table) (oldName newName : string)
  : Table * result bool :=
  if (count_scope oldName st =? 0)%nat then (st, Ok false)
  else if (0 <? count_scope newName st)%nat then (st, Err (ProjectExists newName))
  else (map (move_scope oldName newName) st, Ok true).

(** The five operations of the backend as steps on the table. *)
Inductive op :=
| OpStore (sc : Scope) (entry : NewEntry) (now : string)
| OpRetrieve (sc : Scope) (query : string) (filterTags : list string)
             (limit : option Z)
| OpList (sc : Scope) (filterTags : list string)
| OpDelete (sc : Scope) (i : string)
| OpRename (oldName newName : string).

Inductive answer :=
| AEntry (e : MemoryEntry)
| AEntries (l : list MemoryEntry)
| ABool (b : bool).

Definition map_result {A B} (f : A -> B) (r : result A) : result B :=
  match r with Ok a => Ok (f a) | Err e => Err e end.

Definition exec (st : Table) (o : op) : Table * result answer :=
  match o with
  | OpStore sc entry now =>
      let '(st', r) := store st sc entry now in (st', map_result AEntry r)
  | OpRetrieve sc query filterTags limit =>
      (st, map_result AEntries (retrieve st sc query filterTags limit))
  | OpList sc filterTags => (st, Ok (AEntries (list_ st sc filterTags)))
  | OpDelete sc i => let '(st', r) := delete st sc i in (st', map_result ABool r)
  | OpRename o n =>
      let '(st', r) := renameProject st o n in (st', map_result ABool r)
  end.

(** The [retrieve_memories] tool: its input schema requires a non-empty
    query and [limit] a positive integer at most 100, defaulting to 20;
    [scope: project ?? null]. *)
Definition validate_limit (limit : option Z) : option Z :=
  match limit with
  | None => Some 20%Z
  | Some n => if (0 <? n)%Z && (n <=? 100)%Z then Some n else None
  end.

Definition retrieve_memories (st : Table) (query : string) (project : Scope)
    (filterTags : list string) (limit : option Z) : result (list MemoryEntry) :=
  if String.eqb query EmptyString then Err InvalidInput
  else match validate_limit limit with
       | None => Err InvalidInput
       | Some n => retrieve st project query filterTags (Some n)
       end.

End SqliteBackend.

(* ------------------------------------------------------------------ *)
(** ** sqlite-backend.ts : the BLOB encoding of an embedding *)

(** An element of a Float32Array as its 32-bit pattern, a byte of a
    Buffer as a [Z] in [0, 256).  The bytes of an element are in the
    platform's order, little-endian here; both directions use the same. *)
Definition word_bytes (w : Z) : list Z :=
  [Z.land w 255; Z.land (Z.shiftr w 8) 255;
   Z.land (Z.shiftr w 16) 255; Z.land (Z.shiftr w 24) 255].

(** [float32ToBuffer]: [Buffer.from(arr.buffer, arr.byteOffset,
    arr.byteLength)], the bytes of the elements in order. *)
Definition float32ToBuffer (arr : list Z) : list Z := flat_map word_bytes arr.

(** [n] elements read from the front of a byte sequence. *)
Fixpoint read_words (n : nat) (buf : list Z) : list Z :=
  match n, buf with
  | S n', b0 :: b1 :: b2 :: b3 :: rest =>
      Z.lor (Z.lor b0 (Z.shiftl b1 8)) (Z.lor (Z.shiftl b2 16) (Z.shiftl b3 24))
        :: read_words n' rest
  | _, _ => []
  end.

(** [bufferToFloat32]: [new Float32Array(buf.buffer, buf.byteOffset,
    buf.byteLength / 4)]; the length argument is truncated to an integer
    (ToIndex), so up to three trailing bytes are not read.  The view starts
    at the Buffer's own first byte. *)
Definition bufferToFloat32 (buf : list Z) : list Z :=
  read_words (List.length buf / 4) buf.

(* ------------------------------------------------------------------ *)
(** ** embedding.ts : EmbeddingService *)

(** [TypedArray.prototype.slice(start, end)] for [0 <= start <= end]. *)
Definition slice {A} (l : list A) (start stop : nat) : list A :=
  firstn (stop - start) (skipn start l).

(** The split of [embedBatch]: [data] is the flat output of the extractor
    for [texts] and [dims] the value of [data.length / texts.length], taken
    where it is an integer, as it is when the output holds one row of equal
    width per text. *)
Definition embedBatch_rows {A} (texts : list string) (data : list A) (dims : nat)
  : list (list A) :=
  map (fun i => slice data (i * dims) ((i + 1) * dims)) (seq 0 (List.length texts)).

Module Service.
(** The fields of an [EmbeddingService] that its methods test: [initPromise]
    is [null] ([None]) or the promise of [this._init()], which settles
    fulfilled ([Some true]) or rejected ([Some false]); [init_calls] counts
    the calls of [_init]. *)
Record state := { initPromise : option bool; init_calls : nat }.

Definition fresh : state := {| initPromise := None; init_calls := 0 |}.

Section EmbeddingService.
(** Whether [featurePipeline(...)] in [_init] resolves. *)
Variable load : bool.
(** The output of the loaded extractor on one text. *)
Variable extract : string -> vec.

(** [if (!this.initPromise) { this.initPromise = this._init(); }] *)
Definition start_init (s : state) : state :=
  match s.(initPromise) with
  | None => {| initPromise := Some load; init_calls := S s.(init_calls) |}
  | Some _ => s
  end.

Definition warmUp (s : state) : state := start_init s.

(** [ensureReady]: [await this.initPromise] rethrows a rejection. *)
Definition ensureReady (s : state) : state * bool :=
  let s' := start_init s in
  (s', match s'.(initPromise) with Some true => true | _ => false end).

(** [embed]: [None] when the call rejects. *)
Definition embed (s : state) (text : string) : state * option vec :=
  let '(s', ready) := ensureReady s in
  (s', if ready then Some (extract text) else None).

Inductive call := WarmUp | Embed (text : string).

(** A sequence of calls on one service, with the results of the [embed]
    calls. *)
Fixpoint run (s : state) (cs : list call) : state * list (option vec) :=
  match cs with
  | [] => (s, [])
  | WarmUp :: cs' => run (warmUp s) cs'
  | Embed t :: cs' =>
      let '(s', r) := embed s t in
      let '(s'', rs) := run s' cs' in (s'', r :: rs)
  end.
End EmbeddingService.

Fixpoint embed_texts (cs : list call) : list string :=
  match cs with
  | [] => []
  | WarmUp :: cs' => embed_texts cs'
  | Embed t :: cs' => t :: embed_texts cs'
  end.
End Service.

(* ------------------------------------------------------------------ *)
(** ** The tables the backend can produce *)

(** The rows that [store]'s lookup [scope = ? AND lower(key) = lower(?)]
    selects. *)
Definition count_key (s k : string) (st : Table) : nat :=
  List.length (filter (fun r => String.eqb r.(scope) s && key_matches r.(key) k) st).

(** Ids are unique, and a scope has at most one row per non-empty key up
    to case. *)
Definition well_formed (st : Table) : Prop :=
  NoDup (map id st) /\
  forall s k, k <> EmptyString -> (count_key s k st <= 1)%nat.

(** The tables reached from the empty table created by [init] through calls
    of the backend's operations. *)
Inductive reachable `{ToLowerCase} (embed : string -> option vec) : Table -> Prop :=
| reach_empty : reachable embed []
| reach_step st o : reachable embed st -> reachable embed (fst (exec embed st o)).

(* ------------------------------------------------------------------ *)
(** ** Sample inputs on which the operations are evaluated *)

Module Sample.
Local Open Scope string_scope.
(** An embedding service that maps every text to the unit vector [1]. *)
Definition embed_one : string -> option vec := fun _ => Some [fone].

Definition row (i s u : string) (e : option vec) : MemoryRow := {|
  id := i; scope := s; key := None; content := "note"; tags := [];
  embedding := e; created_at := u; updated_at := u
|}.

Definition older : MemoryRow :=
  row "a" "global" "2026-01-01T00:00:00.000Z" (Some [fone]).
Definition newer : MemoryRow :=
  row "b" "global" "2026-01-02T00:00:00.000Z" (Some [fone]).
Definition legacy : MemoryRow :=
  row "c" "app" "2025-12-31T00:00:00.000Z" None.

(** [older] precedes [newer] in table order. *)
Definition table : Table := [older; newer; legacy].

Definition note : NewEntry := {|
  new_id := "n"; new_key := None; new_content := "Use Zod for validation";
  new_tags := []
|}.

(** A keyed row of scope ["app"], and a store call whose key differs from
    it only in case. *)
Definition keyed : MemoryRow := {|
  id := "k1"; scope := "app"; key := Some "Validation-Lib";
  content := "Use Zod for validation"; tags := ["conventions"];
  embedding := Some [fone]; created_at := "2026-01-01T00:00:00.000Z";
  updated_at := "2026-01-01T00:00:00.000Z"
|}.

Definition keyed_table : Table := [keyed; legacy].

Definition update : NewEntry := {|
  new_id := "k2"; new_key := Some "validation-lib";
  new_content := "Use Zod 4 for validation"; new_tags := ["conventions"]
|}.

(** The vector [1, 1, 1] of a Float32Array. *)
Definition ones3 : vec := [fone; fone; fone].
End Sample.

(* ================================================================== *)
(** * Proofs *)

Section Proofs.
(** The case mapping of the tag filter, for every theorem below. *)
Context `{TL : ToLowerCase}.

(** ** Generic facts: the stable sort, prefixes, byte order on strings *)

Section StableSortFacts.
Context {A : Type} (before : A -> A -> bool).

Lemma insert_stable_perm (x : A) (l : list A) :
  Permutation (insert_stable before x l) (x :: l).
Proof.
  induction l as [|y l IH]; simpl; [reflexivity|].
  destruct (before x y); [reflexivity|].
  rewrite IH. apply perm_swap.
Qed.

Lemma stable_sort_perm (l : list A) : Permutation (stable_sort before l) l.
Proof.
  induction l as [|x l IH]; simpl; [reflexivity|].
  rewrite insert_stable_perm. now apply perm_skip.
Qed.

Hypothesis before_total : forall x y, before x y = false -> before y x = true.
Hypothesis before_trans :
  forall x y z, before x y = true -> before y z = true -> before x z = true.

(** The rank order refined by a tie order [T]: [x] ranks at least as high
    as [y], and when they tie, [T x y]. *)
Definition rank_then (T : A -> A -> Prop) (x y : A) : Prop :=
  before x y = true /\ (before y x = true -> T x y).

Lemma insert_stable_rank_then (T : A -> A -> Prop) (x : A) (s : list A) :
  Forall (T x) s -> StronglySorted (rank_then T) s ->
  StronglySorted (rank_then T) (insert_stable before x s).
Proof.
  induction s as [|y s IH]; intros HT HS; simpl.
  - repeat constructor.
  - inversion HT as [|? ? Txy HT']; subst.
    inversion HS as [|? ? HS' Hy]; subst.
    destruct (before x y) eqn:Exy.
    + constructor; [now constructor|].
      constructor; [split; auto|].
      rewrite Forall_forall in Hy, HT' |- *. intros z Hz.
      destruct (Hy z Hz) as [Eyz _]. split; eauto.
    + constructor; [now apply IH|].
      eapply Permutation_Forall; [symmetry; apply insert_stable_perm|].
      constructor; [|exact Hy].
      split; [now apply before_total|]. intros E; congruence.
Qed.

(** Stability: a list sorted by [T] comes out sorted by rank, then [T]. *)
Lemma stable_sort_rank_then (T : A -> A -> Prop) (l : list A) :
  StronglySorted T l -> StronglySorted (rank_then T) (stable_sort before l).
Proof.
  induction l as [|x l IH]; intros HS; simpl; [constructor|].
  inversion HS as [|? ? HS' Hx]; subst.
  apply insert_stable_rank_then; [|now apply IH].
  eapply Permutation_Forall; [symmetry; apply stable_sort_perm|exact Hx].
Qed.

Lemma StronglySorted_trivial (l : list A) :
  StronglySorted (fun _ _ => True) l.
Proof.
  induction l; constructor; auto. rewrite Forall_forall; auto.
Qed.

Lemma StronglySorted_weaken (R R' : A -> A -> Prop) (l : list A) :
  (forall x y, R x y -> R' x y) -> StronglySorted R l -> StronglySorted R' l.
Proof.
  intros HR. induction 1 as [|x l HS IH Hx]; constructor; auto.
  rewrite Forall_forall in Hx |- *; auto.
Qed.

Lemma stable_sort_sorted (l : list A) :
  StronglySorted (fun x y => before x y = true) (stable_sort before l).
Proof.
  eapply StronglySorted_weaken; [|apply (stable_sort_rank_then (fun _ _ => True) l),
                                   StronglySorted_trivial].
  now intros x y [H _].
Qed.
End StableSortFacts.

Section ListFacts.
Context {A : Type}.

Lemma StronglySorted_app_inv (R : A -> A -> Prop) (l1 l2 : list A) :
  StronglySorted R (l1 ++ l2) ->
  StronglySorted R l1 /\ StronglySorted R l2 /\
  (forall x y, In x l1 -> In y l2 -> R x y).
Proof.
  induction l1 as [|a l1 IH]; simpl; intros H.
  - split; [constructor|]. split; [exact H|]. intros x y [].
  - inversion H as [|? ? H' Ha]; subst.
    destruct (IH H') as (H1 & H2 & H3).
    rewrite Forall_forall in Ha.
    repeat split; auto.
    + constructor; auto. rewrite Forall_forall. intros; apply Ha, in_or_app; auto.
    + intros x y [<-|Hx] Hy; auto. apply Ha, in_or_app; auto.
Qed.

Lemma StronglySorted_firstn (R : A -> A -> Prop) (n : nat) (l : list A) :
  StronglySorted R l -> StronglySorted R (firstn n l).
Proof.
  intros H. rewrite <- (firstn_skipn n l) in H.
  now apply StronglySorted_app_inv in H.
Qed.

Lemma StronglySorted_nth_error (R : A -> A -> Prop) (l : list A) :
  StronglySorted R l -> forall i j a b,
  nth_error l i = Some a -> nth_error l j = Some b -> (i < j)%nat -> R a b.
Proof.
  induction 1 as [|x l HS IH Hx]; intros i j a b Hi Hj Hij.
  - destruct i; discriminate.
  - destruct j as [|j]; [lia|]. simpl in Hj.
    destruct i as [|i]; simpl in Hi.
    + injection Hi as <-. rewrite Forall_forall in Hx.
      apply Hx. eapply nth_error_In; eauto.
    + apply (IH i j); auto; lia.
Qed.

Lemma StronglySorted_sublist_filter (R : A -> A -> Prop) (f : A -> bool)
    (l : list A) :
  StronglySorted R l -> StronglySorted R (filter f l).
Proof.
  induction 1 as [|x l HS IH Hx]; simpl; [constructor|].
  destruct (f x); auto. constructor; auto.
  rewrite Forall_forall in Hx |- *. intros y Hy.
  apply filter_In in Hy. now apply Hx.
Qed.

Lemma slice0_firstn (l : list A) (lim : Z) :
  exists m, slice0 l lim = firstn m l /\ ((0 <= lim)%Z -> m = Z.to_nat lim).
Proof.
  unfold slice0. destruct (lim <? 0)%Z eqn:E.
  - eexists; split; [reflexivity|]. intros; apply Z.ltb_lt in E; lia.
  - eexists; split; [reflexivity|auto].
Qed.
End ListFacts.

Lemma string_compare_le_trans (a b c : string) :
  String.compare a b <> Gt -> String.compare b c <> Gt ->
  String.compare a c <> Gt.
Proof.
  revert b c.
  induction a as [|ca a IH]; intros [|cb b] [|cc c]; simpl; try congruence.
  unfold Ascii.compare.
  destruct (N.compare_spec (N_of_ascii ca) (N_of_ascii cb));
  destruct (N.compare_spec (N_of_ascii cb) (N_of_ascii cc));
  destruct (N.compare_spec (N_of_ascii ca) (N_of_ascii cc));
  intros Hab Hbc; try congruence; try (exfalso; lia).
  eauto.
Qed.

Lemma string_leb_trans (a b c : string) :
  String.leb a b = true -> String.leb b c = true -> String.leb a c = true.
Proof.
  unfold String.leb.
  destruct (String.compare a b) eqn:E1; try discriminate;
  destruct (String.compare b c) eqn:E2; try discriminate;
  destruct (String.compare a c) eqn:E3; auto;
  exfalso; eapply (string_compare_le_trans a b c); congruence.
Qed.

Lemma string_leb_total_false (a b : string) :
  String.leb a b = false -> String.leb b a = true.
Proof.
  intros H. destruct (String.leb_total a b); congruence.
Qed.

(** ** Facts about the queries of SqliteBackend *)

Definition score_before (a b : MemoryRow * Q) : bool := Qle_bool (snd b) (snd a).

Lemma score_before_total a b :
  score_before a b = false -> score_before b a = true.
Proof.
  unfold score_before. intros H. apply Qle_bool_iff.
  destruct (Qlt_le_dec (snd b) (snd a)) as [Hl|Hl].
  - apply Qlt_le_weak in Hl. apply Qle_bool_iff in Hl. congruence.
  - exact Hl.
Qed.

Lemma score_before_trans a b c :
  score_before a b = true -> score_before b c = true -> score_before a c = true.
Proof.
  unfold score_before. rewrite !Qle_bool_iff. intros H1 H2.
  eapply Qle_trans; eauto.
Qed.

Definition updated_before (x y : MemoryRow) : bool :=
  String.leb y.(updated_at) x.(updated_at).

Lemma perm_In_iff {A} (l l' : list A) (x : A) :
  Permutation l l' -> In x l <-> In x l'.
Proof.
  intros P; split; apply Permutation_in; [exact P|now symmetry].
Qed.

Lemma fetch_In (sc : Scope) (st : Table) (r : MemoryRow) :
  In r (fetch sc st) <->
  In r st /\ (is_wildcard sc = true \/ r.(scope) = normaliseScope sc).
Proof.
  unfold fetch, order_by_updated_desc.
  destruct (is_wildcard sc) eqn:W.
  - rewrite (perm_In_iff _ _ _ (stable_sort_perm _ _)). tauto.
  - rewrite (perm_In_iff _ _ _ (stable_sort_perm _ _)), filter_In,
      String.eqb_eq. intuition congruence.
Qed.

Lemma fetch_sorted (sc : Scope) (st : Table) :
  StronglySorted (fun x y => updated_before x y = true) (fetch sc st).
Proof.
  unfold fetch, order_by_updated_desc.
  destruct (is_wildcard sc); apply (stable_sort_sorted updated_before);
    unfold updated_before; intros.
  all: first [now apply string_leb_total_false | eapply string_leb_trans; eauto].
Qed.

Section ScoreRows.
Variable queryVec : vec.
Variable filterTags : list string.

Lemma score_rows_In (rows : Table) (s : MemoryRow * Q) :
  In s (score_rows queryVec filterTags rows) ->
  In (fst s) rows /\ hasAllTags (fst s).(tags) filterTags = true /\
  exists v, (fst s).(embedding) = Some v /\ snd s = cosine_score queryVec v.
Proof.
  induction rows as [|row rows IH]; simpl; [contradiction|].
  intros H.
  destruct (hasAllTags (tags row) filterTags) eqn:T; simpl in H.
  2: destruct (IH H) as (? & ? & ?); auto.
  destruct (embedding row) as [v|] eqn:E.
  2: destruct (IH H) as (? & ? & ?); auto.
  destruct H as [<-|H]; [simpl; split; [now left|]; split; [exact T|]; eauto|].
  destruct (IH H) as (? & ? & ?); auto.
Qed.

Lemma score_rows_In_back (rows : Table) (r : MemoryRow) (v : vec) :
  In r rows -> hasAllTags r.(tags) filterTags = true -> r.(embedding) = Some v ->
  In (r, cosine_score queryVec v) (score_rows queryVec filterTags rows).
Proof.
  induction rows as [|row rows IH]; simpl; [contradiction|].
  intros [<-|H] T E.
  - rewrite T, E. now left.
  - destruct (hasAllTags (tags row) filterTags); simpl; auto.
    destruct (embedding row); simpl; auto.
Qed.

Lemma score_rows_length (rows : Table) :
  (List.length (score_rows queryVec filterTags rows) <= List.length rows)%nat.
Proof.
  induction rows as [|row rows IH]; simpl; [lia|].
  destruct (hasAllTags (tags row) filterTags); simpl; [|lia].
  destruct (embedding row); simpl; lia.
Qed.

Lemma score_rows_sorted (T : MemoryRow -> MemoryRow -> Prop) (rows : Table) :
  StronglySorted T rows ->
  StronglySorted (fun a b => T (fst a) (fst b)) (score_rows queryVec filterTags rows).
Proof.
  induction 1 as [|row rows HS IH Hx]; simpl; [constructor|].
  destruct (hasAllTags (tags row) filterTags); simpl; auto.
  destruct (embedding row); auto.
  constructor; auto. rewrite Forall_forall in Hx |- *.
  intros s Hs. apply score_rows_In in Hs. simpl. apply Hx; tauto.
Qed.
End ScoreRows.

Lemma retrieve_Ok embed st sc query filterTags limit out :
  retrieve embed st sc query filterTags limit = Ok out ->
  exists queryVec, embed query = Some queryVec /\
    out = map (fun s => rowToEntry (fst s))
              (ranked queryVec st sc filterTags
                 (match limit with None => 20%Z | Some n => n end)).
Proof.
  unfold retrieve. destruct (embed query) as [q|]; [|discriminate].
  intros H; injection H as <-. eauto.
Qed.

Lemma ranked_In queryVec st sc filterTags lim s :
  In s (ranked queryVec st sc filterTags lim) ->
  In s (score_rows queryVec filterTags (fetch sc st)).
Proof.
  unfold ranked. destruct (slice0_firstn (by_score_desc
    (score_rows queryVec filterTags (fetch sc st))) lim) as (m & -> & _).
  unfold by_score_desc. intros H.
  apply (Permutation_in _ (stable_sort_perm score_before _)).
  rewrite <- (firstn_skipn m). apply in_or_app. left. exact H.
Qed.

Lemma validate_limit_Some (limit : option Z) (n : Z) :
  validate_limit limit = Some n -> (1 <= n <= 100)%Z /\ (limit = None -> n = 20%Z).
Proof.
  destruct limit as [m|]; simpl.
  - destruct ((0 <? m)%Z && (m <=? 100)%Z) eqn:E; [|discriminate].
    intros H; injection H as <-. apply andb_true_iff in E.
    rewrite Z.ltb_lt, Z.leb_le in E. split; [lia|discriminate].
  - intros H; injection H as <-. split; [lia|auto].
Qed.

Lemma by_score_desc_sorted (l : list (MemoryRow * Q)) :
  StronglySorted (fun a b => snd b <= snd a) (by_score_desc l).
Proof.
  eapply StronglySorted_weaken;
    [|apply (stable_sort_sorted score_before score_before_total score_before_trans)].
  unfold score_before. intros a b H. now apply Qle_bool_iff.
Qed.

Lemma ranked_nonneg queryVec st sc filterTags (lim : Z) :
  (0 <= lim)%Z ->
  ranked queryVec st sc filterTags lim =
  firstn (Z.to_nat lim) (by_score_desc (score_rows queryVec filterTags (fetch sc st))).
Proof.
  intros H. unfold ranked, slice0.
  destruct (lim <? 0)%Z eqn:E; [apply Z.ltb_lt in E; lia|reflexivity].
Qed.

(** ** C5: ranking of retrieve_memories *)

(** C5.  Through the [retrieve_memories] tool, a successful retrieve returns
    the entries of the candidate rows (rows of the scope that carry every
    filter tag and have an embedding, scored by cosine similarity to the query
    vector) ranked by descending score: of two candidates with strictly
    different scores the higher one comes first, the output is the longest
    prefix of at most [limit] entries (default 20, at most 100) of that
    ranking, and every candidate left out scores no higher than every
    candidate returned. *)
Theorem retrieve_memories_ranked_top_k embed st query project filterTags limit out :
  retrieve_memories embed st query project filterTags limit = Ok out ->
  exists queryVec lim top rest,
    embed query = Some queryVec /\
    (1 <= lim <= 100)%Z /\ (limit = None -> lim = 20%Z) /\
    top = ranked queryVec st project filterTags lim /\
    out = map (fun s => rowToEntry (fst s)) top /\
    Permutation (score_rows queryVec filterTags (fetch project st)) (top ++ rest) /\
    List.length top =
      Nat.min (Z.to_nat lim)
              (List.length (score_rows queryVec filterTags (fetch project st))) /\
    (forall i j s1 s2, nth_error top i = Some s1 -> nth_error top j = Some s2 ->
       snd s2 < snd s1 -> (i < j)%nat) /\
    (forall s1 s2, In s1 top -> In s2 rest -> snd s2 <= snd s1).
Proof.
  unfold retrieve_memories.
  destruct (String.eqb query EmptyString) eqn:Q0; [discriminate|].
  destruct (validate_limit limit) as [n|] eqn:VL; [|discriminate].
  destruct (validate_limit_Some _ _ VL) as [Hn Hdef].
  intros H. destruct (retrieve_Ok _ _ _ _ _ _ _ H) as (q & Hq & ->).
  set (cands := score_rows q filterTags (fetch project st)).
  set (sorted := by_score_desc cands).
  assert (Htop : ranked q st project filterTags n = firstn (Z.to_nat n) sorted)
    by (apply ranked_nonneg; lia).
  assert (HS : StronglySorted (fun a b => snd b <= snd a) sorted)
    by apply by_score_desc_sorted.
  exists q, n, (ranked q st project filterTags n), (skipn (Z.to_nat n) sorted).
  rewrite Htop.
  split; [exact Hq|]. split; [exact Hn|]. split; [exact Hdef|].
  split; [reflexivity|]. split; [reflexivity|].
  rewrite <- (firstn_skipn (Z.to_nat n) sorted) in HS.
  destruct (StronglySorted_app_inv _ _ _ HS) as (HS1 & _ & Hcross).
  split; [rewrite firstn_skipn; symmetry; apply stable_sort_perm|].
  split.
  { rewrite length_firstn. f_equal. apply Permutation_length, stable_sort_perm. }
  split; [|exact Hcross].
  intros i j s1 s2 Hi Hj Hlt.
  destruct (lt_eq_lt_dec i j) as [[Hij|Hij]|Hij]; [exact Hij| |].
  - subst j. rewrite Hi in Hj. injection Hj as ->.
    exfalso. exact (Qlt_irrefl _ Hlt).
  - exfalso. pose proof (StronglySorted_nth_error _ _ HS1 j i s2 s1 Hj Hi Hij).
    simpl in H0. apply (Qlt_not_le _ _ Hlt). exact H0.
Qed.

(** ** Entries returned by list and retrieve come from rows of the table *)

Lemma NoDup_id_inj (st : Table) (r r' : MemoryRow) :
  NoDup (map id st) -> In r st -> In r' st -> r.(id) = r'.(id) -> r = r'.
Proof.
  induction st as [|x st IH]; simpl; [contradiction|].
  intros ND. inversion ND as [|? ? Hx ND']; subst.
  intros [<-|Hr] [<-|Hr'] E; auto.
  - exfalso. apply Hx. rewrite E. now apply in_map.
  - exfalso. apply Hx. rewrite <- E. now apply in_map.
Qed.

Lemma rowToEntry_in_table (st : Table) (r r' : MemoryRow) :
  NoDup (map id st) -> In r st -> In r' st -> rowToEntry r = rowToEntry r' -> r = r'.
Proof.
  intros ND Hr Hr' E. apply (NoDup_id_inj st); auto.
  change (id r) with (entry_id (rowToEntry r)). now rewrite E.
Qed.

Lemma list_In (st : Table) (sc : Scope) (filterTags : list string) (e : MemoryEntry) :
  In e (list_ st sc filterTags) <->
  exists r, In r (fetch sc st) /\ hasAllTags r.(tags) filterTags = true /\
            e = rowToEntry r.
Proof.
  unfold list_. destruct filterTags as [|t ts].
  - rewrite in_map_iff. split.
    + intros (r & <- & Hr). eauto.
    + intros (r & Hr & _ & ->). eauto.
  - rewrite in_map_iff. split.
    + intros (r & <- & Hr). apply filter_In in Hr. exists r; tauto.
    + intros (r & Hr & T & ->). exists r. split; auto. now apply filter_In.
Qed.

Lemma retrieve_In embed st sc query filterTags limit out e :
  retrieve embed st sc query filterTags limit = Ok out -> In e out ->
  exists r v, In r (fetch sc st) /\ hasAllTags r.(tags) filterTags = true /\
              r.(embedding) = Some v /\ e = rowToEntry r.
Proof.
  intros H He. destruct (retrieve_Ok _ _ _ _ _ _ _ H) as (q & _ & ->).
  apply in_map_iff in He as (s & <- & Hs).
  apply ranked_In, score_rows_In in Hs as (Hr & T & v & E & _).
  exists (fst s), v. auto.
Qed.

(** ** C6: scope isolation and resolution *)

(** C6.  An entry whose row is stored under some scope never appears in the
    result of [list] or [retrieve] for a non-wildcard scope that resolves to
    a different string; with the wildcard ["*"] every row is listed, and a
    row with an embedding is retrieved when the limit covers the whole table;
    an absent or empty scope resolves to ["global"] and selects exactly the
    rows of the ["global"] bucket. *)
Theorem scope_isolation_and_resolution embed (st : Table) :
  NoDup (map id st) ->
  (forall r B filterTags query limit out,
     In r st -> is_wildcard B = false -> r.(scope) <> normaliseScope B ->
     ~ In (rowToEntry r) (list_ st B filterTags) /\
     (retrieve embed st B query filterTags limit = Ok out ->
      ~ In (rowToEntry r) out)) /\
  (forall r query lim out v,
     In r st ->
     In (rowToEntry r) (list_ st (Some "*"%string) []) /\
     (r.(embedding) = Some v -> (0 <= lim)%Z ->
      (List.length st <= Z.to_nat lim)%nat ->
      retrieve embed st (Some "*"%string) query [] (Some lim) = Ok out ->
      In (rowToEntry r) out)) /\
  (forall sc, sc = None \/ sc = Some EmptyString ->
     normaliseScope sc = "global"%string /\
     forall r, In r (fetch sc st) <-> In r st /\ r.(scope) = "global"%string).
Proof.
  intros ND. split; [|split].
  - intros r B ft query limit out Hr W D. split.
    + intros Hl. apply list_In in Hl as (r' & Hf & _ & E).
      apply fetch_In in Hf as (Hr' & [W'|S']); [congruence|].
      rewrite (rowToEntry_in_table st r r') in D; auto.
    + intros Hret Hin.
      destruct (retrieve_In _ _ _ _ _ _ _ _ Hret Hin) as (r' & v & Hf & _ & _ & E).
      apply fetch_In in Hf as (Hr' & [W'|S']); [congruence|].
      rewrite (rowToEntry_in_table st r r') in D; auto.
  - intros r query lim out v Hr. split.
    + apply list_In. exists r. repeat split; auto. apply fetch_In. auto.
    + intros E Hlim Hlen Hret.
      destruct (retrieve_Ok _ _ _ _ _ _ _ Hret) as (q & _ & ->).
      apply in_map_iff. exists (r, cosine_score q v). split; [reflexivity|].
      rewrite ranked_nonneg by exact Hlim.
      rewrite firstn_all2.
      * apply (Permutation_in _ (Permutation_sym (stable_sort_perm score_before _))).
        apply score_rows_In_back; auto. apply fetch_In; auto.
      * rewrite (Permutation_length (stable_sort_perm score_before _)).
        etransitivity; [apply score_rows_length|].
        unfold fetch; simpl. unfold order_by_updated_desc.
        rewrite (Permutation_length (stable_sort_perm _ _)). exact Hlen.
  - intros sc Hsc.
    assert (Hn : normaliseScope sc = "global"%string)
      by (destruct Hsc as [->| ->]; reflexivity).
    assert (Hw : is_wildcard sc = false) by (destruct Hsc as [->| ->]; reflexivity).
    split; [exact Hn|]. intros r. rewrite fetch_In, Hw, Hn.
    intuition discriminate.
Qed.

(** ** C7: rows without an embedding *)

(** C7.  A row whose embedding is NULL is never returned by [retrieve],
    whatever the query, scope, tags and limit; [list] returns it whenever it
    passes the scope filter and the tag filter. *)
Theorem legacy_rows_listed_never_retrieved embed (st : Table) (r : MemoryRow) :
  NoDup (map id st) -> In r st -> r.(embedding) = None ->
  (forall sc query filterTags limit out,
     retrieve embed st sc query filterTags limit = Ok out ->
     ~ In (rowToEntry r) out) /\
  (forall sc filterTags,
     (is_wildcard sc = true \/ r.(scope) = normaliseScope sc) ->
     hasAllTags r.(tags) filterTags = true ->
     In (rowToEntry r) (list_ st sc filterTags)).
Proof.
  intros ND Hr E. split.
  - intros sc query ft limit out Hret Hin.
    destruct (retrieve_In _ _ _ _ _ _ _ _ Hret Hin) as (r' & v & Hf & _ & E' & Heq).
    apply fetch_In in Hf as [Hr' _].
    rewrite (rowToEntry_in_table st r r') in E; auto. congruence.
  - intros sc ft Hsc T. apply list_In. exists r. repeat split; auto.
    apply fetch_In. auto.
Qed.

(** ** C10: reads leave the table unchanged *)

(** C10.  [retrieve] and [list] run only SELECT statements: as steps of the
    backend they leave the table exactly as it was. *)
Theorem reads_leave_table_unchanged embed (st : Table) :
  (forall sc query filterTags limit,
     fst (exec embed st (OpRetrieve sc query filterTags limit)) = st) /\
  (forall sc filterTags, fst (exec embed st (OpList sc filterTags)) = st).
Proof.
  split; reflexivity.
Qed.

(** ** renameProject *)

Lemma move_scope_scope (o n : string) (r : MemoryRow) :
  scope (move_scope o n r) = if String.eqb (scope r) o then n else scope r.
Proof. unfold move_scope. now destruct (String.eqb (scope r) o). Qed.

Lemma count_scope_move (st : Table) (o n : string) :
  o <> n ->
  count_scope o (map (move_scope o n) st) = 0%nat /\
  count_scope n (map (move_scope o n) st) = (count_scope o st + count_scope n st)%nat.
Proof.
  intros D. unfold count_scope.
  induction st as [|r st [IH1 IH2]]; [split; reflexivity|].
  cbn [map filter]. rewrite move_scope_scope.
  destruct (String.eqb (scope r) o) eqn:E.
  - apply String.eqb_eq in E.
    rewrite (proj2 (String.eqb_neq n o)) by congruence. rewrite String.eqb_refl.
    assert (E' : String.eqb (scope r) n = false) by (apply String.eqb_neq; congruence).
    rewrite E'. cbn [List.length]. split; [exact IH1|]. rewrite IH2. lia.
  - try rewrite E.
    destruct (String.eqb (scope r) n); cbn [List.length]; split; auto; lia.
Qed.

Lemma renameProject_moves (st : Table) (o n : string) :
  count_scope o st <> 0%nat -> count_scope n st = 0%nat ->
  renameProject st o n = (map (move_scope o n) st, Ok true) /\
  count_scope o (map (move_scope o n) st) = 0%nat /\
  count_scope n (map (move_scope o n) st) = count_scope o st.
Proof.
  intros Ho Hn.
  assert (D : o <> n) by (intros ->; contradiction).
  destruct (count_scope_move st o n D) as [C1 C2].
  unfold renameProject.
  destruct (count_scope o st =? 0)%nat eqn:E; [apply Nat.eqb_eq in E; contradiction|].
  rewrite Hn. simpl. repeat split; auto. rewrite C2. lia.
Qed.

(** C3.  [renameProject oldName newName] first answers false (not found),
    leaving the table unchanged, when no row has scope [oldName]; otherwise
    it fails with the "already exists" error, leaving the table unchanged,
    when some row has scope [newName]; otherwise it rewrites, in one step, the
    scope of every row of [oldName] to [newName] (and no other row), after
    which [oldName] is empty and [newName] holds all of its former rows, and
    answers true. *)
Theorem renameProject_outcomes (st : Table) (oldName newName : string) :
  (count_scope oldName st = 0%nat ->
   renameProject st oldName newName = (st, Ok false)) /\
  (count_scope oldName st <> 0%nat -> count_scope newName st <> 0%nat ->
   renameProject st oldName newName = (st, Err (ProjectExists newName))) /\
  (count_scope oldName st <> 0%nat -> count_scope newName st = 0%nat ->
   exists st',
     renameProject st oldName newName = (st', Ok true) /\
     st' = map (fun r => if String.eqb r.(scope) oldName
                         then with_scope r newName else r) st /\
     count_scope oldName st' = 0%nat /\
     count_scope newName st' = count_scope oldName st).
Proof.
  split; [|split].
  - intros H. unfold renameProject. now rewrite H.
  - intros Ho Hn. unfold renameProject.
    destruct (count_scope oldName st =? 0)%nat eqn:E;
      [apply Nat.eqb_eq in E; contradiction|].
    destruct (0 <? count_scope newName st)%nat eqn:E'; [reflexivity|].
    apply Nat.ltb_ge in E'. lia.
  - intros Ho Hn. destruct (renameProject_moves st oldName newName Ho Hn) as (H & C1 & C2).
    exists (map (move_scope oldName newName) st). auto.
Qed.

(** ** store: upsert by key *)

Lemma find_filter_head {A} (p : A -> bool) (l : list A) (x : A) (l' : list A) :
  filter p l = x :: l' -> find p l = Some x.
Proof.
  induction l as [|y l IH]; simpl; [discriminate|].
  destruct (p y); [intros H; injection H as -> _; reflexivity|exact IH].
Qed.

Lemma filter_map_single {A} (p : A -> bool) (f : A -> A) (l : list A) (x : A) :
  filter p l = [x] -> p (f x) = true ->
  (forall y, In y l -> y <> x -> f y = y) ->
  filter p (map f l) = [f x].
Proof.
  intros Hl Hfx Hf.
  assert (Hx : p x = true).
  { assert (In x (filter p l)) by (rewrite Hl; now left).
    now apply filter_In in H. }
  induction l as [|y l IH]; simpl in *; [discriminate|].
  destruct (p y) eqn:Py.
  - injection Hl as -> Hnil. rewrite Hfx. f_equal.
    assert (Hnone : forall z, In z l -> p z = false).
    { intros z Hz. destruct (p z) eqn:Pz; auto.
      assert (In z (filter p l)) by (now apply filter_In). rewrite Hnil in H. contradiction. }
    clear IH Hnil. induction l as [|z l IHl]; simpl; [reflexivity|].
    assert (Hz : p z = false) by (apply Hnone; now left).
    assert (Hzx : z <> x) by congruence.
    rewrite (Hf z (or_intror (or_introl eq_refl)) Hzx), Hz.
    apply IHl; [intros w [<-|Hw] Hne; apply Hf; simpl; auto|].
    intros w Hw; apply Hnone; now right.
  - assert (Hyx : y <> x) by congruence.
    rewrite (Hf y (or_introl eq_refl) Hyx), Py.
    apply IH; auto.
Qed.

Lemma key_matches_self (k : string) : key_matches (Some k) k = true.
Proof. apply String.eqb_refl. Qed.

(** C2.  When the key [k] of a store call is non-empty and exactly one row
    of the resolved scope has a key equal to [k] up to case (the row [ex];
    ids are unique, as the primary key makes them), a successful embedding
    makes [store] update [ex] in place: no row is added, [ex] is still the only
    row of that scope matching [k], and it keeps its id, createdAt and scope
    while its key, content, tags, embedding and updatedAt are replaced; every
    other row is left as it was. *)
Theorem store_upserts_in_place embed st sc entry now k ex v :
  NoDup (map id st) ->
  entry.(new_key) = Some k -> k <> EmptyString ->
  embed entry.(new_content) = Some v ->
  filter (fun r => String.eqb r.(scope) (normaliseScope sc) && key_matches r.(key) k) st
    = [ex] ->
  exists st' e,
    store embed st sc entry now = (st', Ok e) /\
    List.length st' = List.length st /\
    filter (fun r => String.eqb r.(scope) (normaliseScope sc) && key_matches r.(key) k) st'
      = [updated_row ex k entry v now] /\
    (updated_row ex k entry v now).(id) = ex.(id) /\
    (updated_row ex k entry v now).(created_at) = ex.(created_at) /\
    (updated_row ex k entry v now).(scope) = ex.(scope) /\
    (updated_row ex k entry v now).(content) = entry.(new_content) /\
    (updated_row ex k entry v now).(tags) = entry.(new_tags) /\
    (updated_row ex k entry v now).(embedding) = Some v /\
    (updated_row ex k entry v now).(updated_at) = now /\
    (forall r, In r st -> r <> ex -> In r st').
Proof.
  intros ND Hk Hne Hv Hf.
  assert (Hex : In ex st).
  { assert (In ex (filter (fun r => String.eqb r.(scope) (normaliseScope sc)
                                    && key_matches r.(key) k) st))
      by (rewrite Hf; now left).
    now apply filter_In in H. }
  assert (Hkt : key_truthy (Some k) = Some k) by (destruct k; [contradiction|reflexivity]).
  assert (Hfind : find_by_key st (normaliseScope sc) k = Some ex)
    by exact (find_filter_head _ _ _ _ Hf).
  set (f := fun r => if String.eqb r.(id) ex.(id) then updated_row r k entry v now else r).
  assert (Hother : forall r, In r st -> r <> ex -> f r = r).
  { intros r Hr D. unfold f. destruct (String.eqb (id r) (id ex)) eqn:E; [|reflexivity].
    apply String.eqb_eq in E. exfalso. apply D. eapply NoDup_id_inj; eauto. }
  exists (map f st), (rowToEntry (updated_row ex k entry v now)).
  split.
  { unfold store. rewrite Hv, Hk, Hkt. simpl. rewrite Hfind. reflexivity. }
  split; [apply length_map|].
  split.
  { replace (updated_row ex k entry v now) with (f ex)
      by (unfold f; now rewrite String.eqb_refl).
    apply filter_map_single; auto.
    unfold f. rewrite String.eqb_refl. simpl.
    apply andb_true_iff. split; [|apply key_matches_self].
    assert (In ex (filter (fun r => String.eqb r.(scope) (normaliseScope sc)
                                    && key_matches r.(key) k) st))
      by (rewrite Hf; now left).
    apply filter_In in H as [_ H]. now apply andb_true_iff in H as [H _]. }
  repeat split; auto.
  intros r Hr D. rewrite <- (Hother r Hr D). now apply in_map.
Qed.

(** ** C4: reserved names in renameProject *)

(** C4 (code bug).  [renameProject] has no check for the wildcard ["*"] or
    the global bucket ["global"]: when either name is one of them, the call
    has the outcomes of any other pair of names, in either position.  It
    answers false when no row has scope [oldName]; it fails with the
    "already exists" error, leaving the table unchanged, when [newName] has
    rows; otherwise it moves every row of [oldName] to [newName], answers
    true and changes the table, so renaming onto ["*"] writes rows whose
    scope is the literal string ["*"]. *)
Theorem renameProject_reserved_names_ordinary (st : Table) (oldName newName : string) :
  In oldName ["*"; "global"]%string \/ In newName ["*"; "global"]%string ->
  (count_scope oldName st = 0%nat ->
   renameProject st oldName newName = (st, Ok false)) /\
  (count_scope oldName st <> 0%nat -> count_scope newName st <> 0%nat ->
   renameProject st oldName newName = (st, Err (ProjectExists newName))) /\
  (count_scope oldName st <> 0%nat -> count_scope newName st = 0%nat ->
   renameProject st oldName newName =
     (map (move_scope oldName newName) st, Ok true) /\
   count_scope oldName (map (move_scope oldName newName) st) = 0%nat /\
   count_scope newName (map (move_scope oldName newName) st) = count_scope oldName st /\
   map (move_scope oldName newName) st <> st).
Proof.
  intros _. split; [|split].
  - intros Ho. unfold renameProject. now rewrite Ho.
  - intros Ho Hn. unfold renameProject.
    destruct (count_scope oldName st =? 0)%nat eqn:E;
      [apply Nat.eqb_eq in E; contradiction|].
    destruct (0 <? count_scope newName st)%nat eqn:E'; [reflexivity|].
    apply Nat.ltb_ge in E'. lia.
  - intros Ho Hn.
    destruct (renameProject_moves st oldName newName Ho Hn) as (H & C1 & C2).
    split; [exact H|]. split; [exact C1|]. split; [exact C2|].
    intros Eq. rewrite Eq in C1. contradiction.
Qed.

(** ** C8: ties between equal scores *)


(** C8 (amended).  The sort by score is stable and its input is in the
    order of [ORDER BY updated_at DESC]: of two returned entries with equal
    scores, the one ranked first has the later (or the same) updatedAt. *)
Theorem retrieve_ties_most_recent_first embed st sc query filterTags limit out :
  retrieve embed st sc query filterTags limit = Ok out ->
  exists queryVec top,
    embed query = Some queryVec /\
    top = ranked queryVec st sc filterTags
            (match limit with None => 20%Z | Some n => n end) /\
    out = map (fun s => rowToEntry (fst s)) top /\
    (forall i j s1 s2, nth_error top i = Some s1 -> nth_error top j = Some s2 ->
       (i < j)%nat -> snd s1 == snd s2 ->
       String.leb (fst s2).(updated_at) (fst s1).(updated_at) = true).
Proof.
  intros H. destruct (retrieve_Ok _ _ _ _ _ _ _ H) as (q & Hq & ->).
  set (lim := match limit with None => 20%Z | Some n => n end).
  exists q, (ranked q st sc filterTags lim).
  split; [exact Hq|]. split; [reflexivity|]. split; [reflexivity|].
  set (T := fun a b : MemoryRow * Q => updated_before (fst a) (fst b) = true).
  assert (HS : StronglySorted (rank_then score_before T)
                 (by_score_desc (score_rows q filterTags (fetch sc st)))).
  { apply stable_sort_rank_then; [exact score_before_total|exact score_before_trans|].
    apply (score_rows_sorted q filterTags (fun x y => updated_before x y = true)).
    apply fetch_sorted. }
  unfold ranked.
  destruct (slice0_firstn (by_score_desc (score_rows q filterTags (fetch sc st))) lim)
    as (m & -> & _).
  intros i j s1 s2 Hi Hj Hij Heq.
  destruct (StronglySorted_nth_error _ _ (StronglySorted_firstn _ m _ HS)
              i j s1 s2 Hi Hj Hij) as [_ Htie].
  apply Htie. unfold score_before. apply Qle_bool_iff, Qle_lteq. right. exact Heq.
Qed.

(** ** C9: range of cosineSimilarity *)

(** C9.  cosineSimilarity leaves [-1, 1]: for the vector [1, 1, 1] with
    itself the double arithmetic gives [3 / (sqrt 3 * sqrt 3)] with
    [sqrt 3 * sqrt 3] rounded below 3, that is 1 + 2^-52 =
    1.0000000000000002, greater than 1. *)
Theorem cosineSimilarity_above_one :
  cosineSimilarity Sample.ones3 Sample.ones3 = S754_finite false 4503599627370497 (-52) /\
  SFltb fone (cosineSimilarity Sample.ones3 Sample.ones3) = true /\
  1 < SF2Q (cosineSimilarity Sample.ones3 Sample.ones3).
Proof.
  split; [|split]; vm_compute; reflexivity.
Qed.

(* ================================================================== *)
(** * Further properties of the code *)

(** ** Generic facts about filters and prefixes *)

Lemma filter_length_map_eq {A} (p : A -> bool) (f : A -> A) (l : list A) :
  (forall x, In x l -> p (f x) = p x) ->
  List.length (filter p (map f l)) = List.length (filter p l).
Proof.
  induction l as [|x l IH]; intros H; [reflexivity|]. cbn [map filter].
  rewrite (H x (or_introl eq_refl)).
  destruct (p x); cbn [List.length]; rewrite IH; auto; intros y Hy; apply H; now right.
Qed.

Lemma filter_length_map_le {A} (p q : A -> bool) (f : A -> A) (l : list A) :
  (forall x, In x l -> p (f x) = true -> q x = true) ->
  (List.length (filter p (map f l)) <= List.length (filter q l))%nat.
Proof.
  induction l as [|x l IH]; intros H; [reflexivity|]. cbn [map filter].
  assert (IH' : (List.length (filter p (map f l)) <= List.length (filter q l))%nat)
    by (apply IH; intros y Hy; apply H; now right).
  destruct (p (f x)) eqn:P.
  - rewrite (H x (or_introl eq_refl) P). cbn [List.length]. lia.
  - destruct (q x); cbn [List.length]; lia.
Qed.

Lemma filter_length_filter_le {A} (p q : A -> bool) (l : list A) :
  (List.length (filter p (filter q l)) <= List.length (filter p l))%nat.
Proof.
  induction l as [|x l IH]; [reflexivity|]. cbn [filter].
  destruct (q x); cbn [filter]; destruct (p x); cbn [List.length]; lia.
Qed.

Lemma NoDup_ids_filter (keep : MemoryRow -> bool) (st : Table) :
  NoDup (map id st) -> NoDup (map id (filter keep st)).
Proof.
  intros ND. induction st as [|r st IH]; cbn [filter]; [constructor|].
  inversion ND as [|? ? Hr ND']; subst.
  destruct (keep r); [|now apply IH].
  cbn [map]. constructor; [|now apply IH].
  rewrite in_map_iff. intros (r' & E & Hr'). apply filter_In in Hr' as [Hr' _].
  apply Hr. rewrite <- E. now apply in_map.
Qed.

Lemma firstn_add {A} (a b : nat) (l : list A) :
  firstn (a + b) l = firstn a l ++ firstn b (skipn a l).
Proof.
  revert l. induction a as [|a IH]; intros l; [reflexivity|].
  destruct l as [|x l]; cbn [plus firstn skipn app].
  - now destruct b.
  - now rewrite IH.
Qed.

Lemma count_scope_zero (s : string) (st : Table) (r : MemoryRow) :
  count_scope s st = 0%nat -> In r st -> r.(scope) <> s.
Proof.
  unfold count_scope. intros H Hr E.
  apply length_zero_iff_nil in H.
  assert (In r (filter (fun r => String.eqb r.(scope) s) st))
    by (apply filter_In; split; auto; now apply String.eqb_eq).
  rewrite H in H0. contradiction.
Qed.

Lemma lower_empty (k : string) : lower k = EmptyString -> k = EmptyString.
Proof. destruct k; [auto|discriminate]. Qed.

(** ** store: its outcomes *)

(** The four paths of [store]: embedding failure, update of the row found
    by key, primary-key violation, insertion. *)
Lemma store_cases embed st sc entry now :
  let scopeStr := normaliseScope sc in
  (embed entry.(new_content) = None /\ store embed st sc entry now = (st, Err ModelUnavailable))
  \/ (exists v k ex,
        embed entry.(new_content) = Some v /\
        key_truthy entry.(new_key) = Some k /\
        find_by_key st scopeStr k = Some ex /\
        store embed st sc entry now =
          (map (fun r => if String.eqb r.(id) ex.(id)
                         then updated_row r k entry v now else r) st,
           Ok (rowToEntry (updated_row ex k entry v now))))
  \/ (exists v,
        embed entry.(new_content) = Some v /\
        (forall k, key_truthy entry.(new_key) = Some k ->
                   find_by_key st scopeStr k = None) /\
        ((existsb (fun r => String.eqb r.(id) entry.(new_id)) st = true /\
          store embed st sc entry now = (st, Err ConstraintViolation)) \/
         (existsb (fun r => String.eqb r.(id) entry.(new_id)) st = false /\
          store embed st sc entry now =
            (st ++ [{| id := entry.(new_id); scope := scopeStr;
                       key := entry.(new_key); content := entry.(new_content);
                       tags := entry.(new_tags); embedding := Some v;
                       created_at := now; updated_at := now |}],
             Ok {| entry_id := entry.(new_id); entry_key := entry.(new_key);
                   entry_content := entry.(new_content);
                   entry_tags := entry.(new_tags);
                   createdAt := now; updatedAt := now |})))).
Proof.
  intros scopeStr. unfold store. fold scopeStr.
  destruct (embed (new_content entry)) as [v|] eqn:E; [|left; auto].
  right.
  destruct (key_truthy (new_key entry)) as [k|] eqn:K.
  - destruct (find_by_key st scopeStr k) as [ex|] eqn:F.
    + left. exists v, k, ex. repeat split; auto.
    + right. exists v. split; [auto|]. split.
      * intros k' Hk'. congruence.
      * cbn [option_map].
        destruct (existsb (fun r => String.eqb r.(id) entry.(new_id)) st); auto.
  - right. exists v. split; [auto|]. split; [intros; discriminate|]. cbn [option_map].
    destruct (existsb (fun r => String.eqb r.(id) entry.(new_id)) st); auto.
Qed.

(** A failed [store] leaves the table as it was: either the embedding
    service failed ([ModelUnavailable]) or no row matched the key and the
    INSERT hit an id already in the table. *)
Theorem store_error_leaves_table embed st sc entry now st' e :
  store embed st sc entry now = (st', Err e) ->
  st' = st /\
  ((embed entry.(new_content) = None /\ e = ModelUnavailable) \/
   (e = ConstraintViolation /\ In entry.(new_id) (map id st))).
Proof.
  destruct (store_cases embed st sc entry now)
    as [(E & ->)|[(v & k & ex & E & K & F & ->)|(v & E & K & [(X & ->)|(X & ->)])]];
    intros H; injection H as <- H; try discriminate.
  - subst e. auto.
  - subst e. split; [reflexivity|]. right. split; [reflexivity|].
    apply existsb_exists in X as (r & Hr & Er). apply String.eqb_eq in Er.
    rewrite <- Er. now apply in_map.
Qed.

(** The entry a successful [store] returns is the entry of a row of the new
    table, in the resolved scope, with an embedding and [updatedAt = now]; a
    [list] of the same scope shows it. *)
Theorem store_then_list embed st sc entry now st' e :
  store embed st sc entry now = (st', Ok e) ->
  exists r, In r st' /\ r.(scope) = normaliseScope sc /\ e = rowToEntry r /\
    r.(updated_at) = now /\ r.(embedding) <> None /\
    In e (list_ st' sc []).
Proof.
  intros H.
  assert (Hl : forall r, In r st' -> r.(scope) = normaliseScope sc ->
                 In (rowToEntry r) (list_ st' sc [])).
  { intros r Hr Hs. apply list_In. exists r. split; [|split; [reflexivity|auto]].
    apply fetch_In. auto. }
  destruct (store_cases embed st sc entry now)
    as [(E & Hs)|[(v & k & ex & E & K & F & Hs)|(v & E & K & [(X & Hs)|(X & Hs)])]];
    rewrite Hs in H; try discriminate H; injection H as <- <-.
  - apply find_some in F as (Hex & Pex).
    apply andb_true_iff in Pex as [Sex _]. apply String.eqb_eq in Sex.
    exists (updated_row ex k entry v now).
    assert (Hin : In (updated_row ex k entry v now)
              (map (fun r => if String.eqb r.(id) ex.(id)
                             then updated_row r k entry v now else r) st)).
    { apply in_map_iff. exists ex. now rewrite String.eqb_refl. }
    split; [exact Hin|]. split; [exact Sex|]. split; [reflexivity|].
    split; [reflexivity|]. split; [discriminate|]. now apply Hl.
  - eexists. split; [apply in_or_app; right; now left|].
    split; [reflexivity|]. split; [reflexivity|]. split; [reflexivity|].
    split; [discriminate|].
    match goal with |- In _ (list_ (_ ++ [?nr]) _ _) => apply (Hl nr) end;
      [apply in_or_app; right; now left|reflexivity].
Qed.

(** Insert then delete: a store that finds no row by key and whose id is
    new appends one row, and deleting that id in the same scope restores the
    table and answers true. *)
Theorem store_then_delete embed st sc entry now v :
  embed entry.(new_content) = Some v ->
  (forall k, key_truthy entry.(new_key) = Some k ->
             find_by_key st (normaliseScope sc) k = None) ->
  ~ In entry.(new_id) (map id st) ->
  exists st' e,
    store embed st sc entry now = (st', Ok e) /\
    List.length st' = S (List.length st) /\
    delete st' sc entry.(new_id) = (st, Ok true).
Proof.
  intros Hv Hk Hid.
  destruct (store_cases embed st sc entry now)
    as [(E & Hs)|[(v' & k & ex & E & K & F & Hs)|(v' & E & K & [(X & Hs)|(X & Hs)])]].
  - congruence.
  - rewrite (Hk k K) in F. discriminate.
  - exfalso. apply Hid. apply existsb_exists in X as (r & Hr & Er).
    apply String.eqb_eq in Er. rewrite <- Er. now apply in_map.
  - rewrite Hs. eexists _, _. split; [reflexivity|].
    split; [rewrite length_app; cbn; lia|].
    unfold delete.
    assert (Hkeep : filter (fun r => negb (String.eqb r.(scope) (normaliseScope sc)
                                     && String.eqb r.(id) entry.(new_id))) st = st).
    { apply forallb_filter_id. apply forallb_forall. intros r Hr.
      destruct (String.eqb (id r) (new_id entry)) eqn:Er.
      - apply String.eqb_eq in Er. exfalso. apply Hid. rewrite <- Er. now apply in_map.
      - now rewrite andb_false_r. }
    rewrite filter_app, Hkeep. cbn [filter]. rewrite !String.eqb_refl. cbn [negb andb].
    rewrite app_nil_r, length_app. cbn [List.length].
    replace (List.length st <? List.length st + 1)%nat with true; [reflexivity|].
    symmetry. apply Nat.ltb_lt. lia.
Qed.

(** ** The invariant of the table *)

Lemma key_matches_lower (k0 k k' : string) :
  String.eqb (lower k0) (lower k) = true ->
  key_matches (Some k0) k' = key_matches (Some k) k'.
Proof.
  intros E. apply String.eqb_eq in E. unfold key_matches. now rewrite E.
Qed.

Lemma store_well_formed embed st sc entry now :
  well_formed st -> well_formed (fst (store embed st sc entry now)).
Proof.
  intros [ND KU].
  destruct (store_cases embed st sc entry now)
    as [(E & Hs)|[(v & k & ex & E & K & F & Hs)|(v & E & K & [(X & Hs)|(X & Hs)])]];
    rewrite Hs; cbn [fst]; try (split; assumption).
  - apply find_some in F as (Hex & Pex).
    apply andb_true_iff in Pex as [Sex Kex].
    set (f := fun r => if String.eqb r.(id) ex.(id) then updated_row r k entry v now else r).
    assert (Hf : forall r, In r st -> r <> ex -> f r = r).
    { intros r Hr D. unfold f. destruct (String.eqb (id r) (id ex)) eqn:Er; [|reflexivity].
      apply String.eqb_eq in Er. exfalso. apply D. eapply NoDup_id_inj; eauto. }
    split.
    + rewrite map_map. replace (map (fun x => id (f x)) st) with (map id st); [exact ND|].
      apply map_ext. intros r. unfold f. now destruct (String.eqb (id r) (id ex)).
    + intros s k' Hk'. unfold count_key. rewrite filter_length_map_eq; [apply KU, Hk'|].
      intros r Hr. destruct (String.eqb (id r) (id ex)) eqn:Er.
      * apply String.eqb_eq in Er. assert (r = ex) by (eapply NoDup_id_inj; eauto). subst r.
        unfold f. rewrite String.eqb_refl. cbn [updated_row scope key].
        destruct (key ex) as [k0|]; [|discriminate].
        f_equal. symmetry. apply key_matches_lower. exact Kex.
      * unfold f. now rewrite Er.
  - set (nr := {| id := new_id entry; scope := normaliseScope sc; key := new_key entry;
                  content := new_content entry; tags := new_tags entry;
                  embedding := Some v; created_at := now; updated_at := now |}).
    split.
    + rewrite map_app. cbn [map]. apply NoDup_app; [exact ND|repeat constructor; auto|].
      intros x Hx [<-|[]]. apply in_map_iff in Hx as (r & Er & Hr).
      assert (existsb (fun r => String.eqb r.(id) entry.(new_id)) st = true)
        by (apply existsb_exists; exists r; split; auto; now apply String.eqb_eq).
      congruence.
    + intros s k' Hk'. unfold count_key. rewrite filter_app, length_app. cbn [filter].
      fold (count_key s k' st).
      destruct (String.eqb (scope nr) s && key_matches (key nr) k') eqn:P;
        cbn [List.length]; [|specialize (KU s k' Hk'); lia].
      apply andb_true_iff in P as [Ps Pk]. apply String.eqb_eq in Ps.
      cbn [scope key nr] in Ps, Pk.
      destruct (new_key entry) as [k0|] eqn:Ek; [|discriminate].
      assert (Hk0 : k0 <> EmptyString).
      { intros ->. apply Hk'. apply lower_empty. apply String.eqb_eq in Pk.
        cbn in Pk. now symmetry. }
      assert (Kt : key_truthy (Some k0) = Some k0) by (destruct k0; [contradiction|reflexivity]).
      specialize (K k0 Kt). unfold find_by_key in K.
      assert (Z0 : count_key s k' st = 0%nat).
      { unfold count_key. apply length_zero_iff_nil.
        destruct (filter _ st) as [|r l] eqn:Fl; [reflexivity|exfalso].
        assert (Hr : In r (filter (fun r => String.eqb r.(scope) s && key_matches r.(key) k') st))
          by (rewrite Fl; now left).
        apply filter_In in Hr as [Hr Pr].
        pose proof (find_none _ _ K r Hr) as Nr.
        apply andb_true_iff in Pr as [Prs Prk]. rewrite Ps, Prs in Nr.
        destruct (key r) as [kr|]; [|discriminate].
        unfold key_matches in Prk, Nr, Pk. apply String.eqb_eq in Prk, Pk.
        rewrite Prk, Pk, String.eqb_refl in Nr. discriminate. }
      rewrite Z0. lia.
Qed.

Lemma delete_well_formed st sc i :
  well_formed st -> well_formed (fst (delete st sc i)).
Proof.
  intros [ND KU]. unfold delete. cbn [fst]. split.
  - now apply NoDup_ids_filter.
  - intros s k Hk. unfold count_key.
    eapply Nat.le_trans; [apply filter_length_filter_le|]. now apply KU.
Qed.

Lemma renameProject_well_formed st o n :
  well_formed st -> well_formed (fst (renameProject st o n)).
Proof.
  intros [ND KU]. unfold renameProject.
  destruct (count_scope o st =? 0)%nat eqn:Ho; [split; assumption|].
  destruct (0 <? count_scope n st)%nat eqn:Hn; [split; assumption|].
  apply Nat.eqb_neq in Ho. apply Nat.ltb_ge in Hn.
  assert (Hn0 : count_scope n st = 0%nat) by lia.
  cbn [fst]. split.
  - rewrite map_map. replace (map (fun x => id (move_scope o n x)) st) with (map id st);
      [exact ND|].
    apply map_ext. intros r. unfold move_scope. now destruct (String.eqb (scope r) o).
  - intros s k Hk. unfold count_key.
    destruct (String.eqb s n) eqn:Sn.
    + apply String.eqb_eq in Sn. subst s.
      eapply Nat.le_trans; [|apply (KU o k Hk)].
      apply filter_length_map_le. intros r Hr P.
      apply andb_true_iff in P as [Ps Pk].
      rewrite move_scope_scope in Ps. unfold move_scope in Pk.
      destruct (String.eqb (scope r) o) eqn:Ro.
      * cbn [with_scope key] in Pk. now rewrite Pk.
      * exfalso. apply String.eqb_eq in Ps. exact (count_scope_zero n st r Hn0 Hr Ps).
    + eapply Nat.le_trans; [|apply (KU s k Hk)].
      apply filter_length_map_le. intros r Hr P.
      apply andb_true_iff in P as [Ps Pk].
      rewrite move_scope_scope in Ps. unfold move_scope in Pk.
      destruct (String.eqb (scope r) o) eqn:Ro.
      * apply String.eqb_eq in Ps. subst s. now rewrite String.eqb_refl in Sn.
      * now rewrite Ps, Pk.
Qed.

Lemma exec_well_formed embed st o :
  well_formed st -> well_formed (fst (exec embed st o)).
Proof.
  intros W. destruct o as [sc entry now|sc q ft lim|sc ft|sc i|o n]; cbn [exec].
  - pose proof (store_well_formed embed st sc entry now W).
    destruct (store embed st sc entry now). exact H.
  - exact W.
  - exact W.
  - pose proof (delete_well_formed st sc i W). destruct (delete st sc i). exact H.
  - pose proof (renameProject_well_formed st o n W).
    destruct (renameProject st o n). exact H.
Qed.

(** Every table the backend produces from an empty one has unique ids and
    at most one row per scope and non-empty key up to case, whatever the
    embedding service answers. *)
Theorem reachable_well_formed embed st :
  reachable embed st -> well_formed st.
Proof.
  induction 1 as [|st o _ IH].
  - split; [constructor|]. intros s k _. cbn. lia.
  - now apply exec_well_formed.
Qed.

(** ** delete *)

Lemma filter_split_length {A} (p : A -> bool) (l : list A) :
  List.length l = (List.length (filter (fun x => negb (p x)) l) +
                   List.length (filter p l))%nat.
Proof.
  induction l as [|x l IH]; [reflexivity|]. cbn [filter].
  destruct (p x); cbn [negb List.length]; lia.
Qed.

Lemma NoDup_all_equal_length {A} (l : list A) (a : A) :
  NoDup l -> (forall x, In x l -> x = a) -> (List.length l <= 1)%nat.
Proof.
  intros ND H. destruct l as [|x [|y l]]; cbn [List.length]; try lia.
  inversion ND as [|? ? Hx _]; subst. exfalso. apply Hx.
  rewrite (H x (or_introl eq_refl)), (H y (or_intror (or_introl eq_refl))). now left.
Qed.

(** [delete] removes exactly the rows of the resolved scope with the given
    id, keeps the others, answers true exactly when such a row existed, and
    with unique ids removes one row when it answers true. *)
Theorem delete_removes_exactly st sc i :
  exists st' b,
    delete st sc i = (st', Ok b) /\
    (forall r, In r st' <-> In r st /\ ~ (r.(scope) = normaliseScope sc /\ r.(id) = i)) /\
    (b = true <-> exists r, In r st /\ r.(scope) = normaliseScope sc /\ r.(id) = i) /\
    (NoDup (map id st) -> List.length st = (List.length st' + if b then 1 else 0)%nat).
Proof.
  set (q := fun r => String.eqb r.(scope) (normaliseScope sc) && String.eqb r.(id) i).
  assert (Hq : forall r, q r = true <-> r.(scope) = normaliseScope sc /\ r.(id) = i).
  { intros r. unfold q. now rewrite andb_true_iff, !String.eqb_eq. }
  pose proof (filter_split_length q st) as Hlen.
  exists (filter (fun r => negb (q r)) st),
         (List.length (filter (fun r => negb (q r)) st) <? List.length st)%nat.
  split; [reflexivity|]. split; [|split].
  - intros r. rewrite filter_In, negb_true_iff, <- Hq, not_true_iff_false. tauto.
  - rewrite Nat.ltb_lt. split.
    + intros H. destruct (filter q st) as [|r l] eqn:F; [cbn in Hlen; lia|].
      assert (Hr : In r (filter q st)) by (rewrite F; now left).
      apply filter_In in Hr as [Hr Pr]. apply Hq in Pr. exists r. tauto.
    + intros (r & Hr & Hs & Hi).
      assert (In r (filter q st)) by (apply filter_In; split; auto; now apply Hq).
      destruct (filter q st); [contradiction|]. cbn [List.length] in Hlen. lia.
  - intros ND.
    assert (H1 : (List.length (filter q st) <= 1)%nat).
    { rewrite <- (length_map id). apply (NoDup_all_equal_length _ i).
      - now apply NoDup_ids_filter.
      - intros x Hx. apply in_map_iff in Hx as (r & <- & Hr).
        apply filter_In in Hr as [_ Pr]. now apply Hq in Pr. }
    destruct (List.length (filter (fun r => negb (q r)) st) <? List.length st)%nat eqn:B.
    + apply Nat.ltb_lt in B. lia.
    + apply Nat.ltb_ge in B. lia.
Qed.

(** ** renameProject *)

(** A successful rename is undone by the reverse rename, which succeeds. *)
Theorem renameProject_roundtrip st o n st' :
  renameProject st o n = (st', Ok true) ->
  renameProject st' n o = (st, Ok true).
Proof.
  unfold renameProject at 1.
  destruct (count_scope o st =? 0)%nat eqn:Ho; [intros H; injection H as _ H; discriminate|].
  destruct (0 <? count_scope n st)%nat eqn:Hn; [discriminate|].
  intros H; injection H as <-.
  apply Nat.eqb_neq in Ho. apply Nat.ltb_ge in Hn.
  assert (Hn0 : count_scope n st = 0%nat) by lia.
  assert (D : o <> n) by (intros ->; contradiction).
  destruct (renameProject_moves st o n Ho Hn0) as (_ & C1 & C2).
  assert (Hn' : count_scope n (map (move_scope o n) st) <> 0%nat) by congruence.
  destruct (renameProject_moves _ n o Hn' C1) as (-> & _ & _).
  f_equal. rewrite map_map. rewrite <- (map_id st) at 2.
  apply map_ext_in. intros r Hr. unfold move_scope at 2.
  destruct (String.eqb (scope r) o) eqn:Ro.
  - apply String.eqb_eq in Ro. unfold move_scope. cbn [with_scope scope].
    rewrite String.eqb_refl. rewrite <- Ro. destruct r; reflexivity.
  - unfold move_scope. rewrite (proj2 (String.eqb_neq (scope r) n)); [reflexivity|].
    exact (count_scope_zero n st r Hn0 Hr).
Qed.

(** ** hasAllTags *)

(** A row passes the tag filter exactly when every filter tag has the same
    JS [toLowerCase] image as one of the row's tags; an empty filter passes
    every row. *)
Theorem hasAllTags_spec (entryTags filterTags : list string) :
  hasAllTags entryTags filterTags = true <->
  forall t, In t filterTags ->
    exists e, In e entryTags /\ toLowerCase e = toLowerCase t.
Proof.
  unfold hasAllTags. destruct filterTags as [|t0 ts].
  - split; [intros _ t []|reflexivity].
  - rewrite forallb_forall. split.
    + intros Hall t Ht. specialize (Hall t Ht).
      apply existsb_exists in Hall as (l & Hl & E).
      apply in_map_iff in Hl as (e & <- & He). apply String.eqb_eq in E. eauto.
    + intros Hall t Ht. destruct (Hall t Ht) as (e & He & E). apply existsb_exists.
      exists (toLowerCase e). split; [now apply in_map|]. apply String.eqb_eq. auto.
Qed.

(** ** list *)

Lemma StronglySorted_map {A B} (R : B -> B -> Prop) (f : A -> B) (l : list A) :
  StronglySorted (fun x y => R (f x) (f y)) l -> StronglySorted R (map f l).
Proof.
  induction 1 as [|x l HS IH Hx]; cbn [map]; constructor; auto.
  apply Forall_map. exact Hx.
Qed.

(** [list] returns entries most recently updated first; with tags it is the
    untagged list of the scope filtered by [hasAllTags], in the same order;
    untagged it has one entry per row of the scope (every row for the
    wildcard). *)
Theorem list_order_and_filter (st : Table) (sc : Scope) (filterTags : list string) :
  StronglySorted (fun e1 e2 => String.leb e2.(updatedAt) e1.(updatedAt) = true)
    (list_ st sc filterTags) /\
  list_ st sc filterTags =
    filter (fun e => hasAllTags e.(entry_tags) filterTags) (list_ st sc []) /\
  Permutation (list_ st sc [])
    (map rowToEntry (if is_wildcard sc then st
                     else filter (fun r => String.eqb r.(scope) (normaliseScope sc)) st)).
Proof.
  split; [|split].
  - unfold list_. pose proof (fetch_sorted sc st) as HS. unfold updated_before in HS.
    destruct filterTags; apply StronglySorted_map; [exact HS|].
    now apply StronglySorted_sublist_filter.
  - unfold list_. destruct filterTags as [|t ts].
    + symmetry. apply forallb_filter_id. apply forallb_forall. reflexivity.
    + generalize (fetch sc st). induction t0 as [|r l IH]; [reflexivity|].
      cbn [filter map]. change (entry_tags (rowToEntry r)) with (tags r).
      destruct (hasAllTags (tags r) (t :: ts)); cbn [map]; now rewrite IH.
  - unfold list_, fetch, order_by_updated_desc. apply Permutation_map.
    destruct (is_wildcard sc); apply stable_sort_perm.
Qed.

(** ** retrieve: the limit *)

(** With [n] candidates, [retrieve] returns [min limit n] entries for a
    non-negative limit, and for a negative limit [-m] all but the [m]
    lowest-ranked candidates ([slice(0, -m)]). *)
Theorem retrieve_length embed st sc query filterTags lim queryVec :
  embed query = Some queryVec ->
  exists out,
    retrieve embed st sc query filterTags (Some lim) = Ok out /\
    List.length out =
      (let n := List.length (score_rows queryVec filterTags (fetch sc st)) in
       if (lim <? 0)%Z then n - Z.to_nat (- lim) else Nat.min (Z.to_nat lim) n)%nat.
Proof.
  intros Hq. unfold retrieve. rewrite Hq. eexists. split; [reflexivity|].
  rewrite length_map. unfold ranked, slice0.
  assert (E : List.length (by_score_desc (score_rows queryVec filterTags (fetch sc st)))
              = List.length (score_rows queryVec filterTags (fetch sc st)))
    by (apply Permutation_length, stable_sort_perm).
  cbv zeta. destruct (lim <? 0)%Z; rewrite length_firstn, E; lia.
Qed.

(** ** embedBatch *)

Lemma embedBatch_concat {A} (data : list A) (dims j m : nat) :
  List.concat (map (fun i => slice data (i * dims) ((i + 1) * dims)) (seq j m)) =
  firstn (m * dims) (skipn (j * dims) data).
Proof.
  revert j. induction m as [|m IH]; intros j; [reflexivity|].
  cbn [seq map List.concat]. rewrite IH. unfold slice.
  replace ((j + 1) * dims - j * dims)%nat with dims by lia.
  replace (S m * dims)%nat with (dims + m * dims)%nat by lia.
  now rewrite firstn_add, skipn_skipn.
Qed.

(** When the extractor's output holds [dims] values per text, [embedBatch]
    returns one vector of [dims] values per text, and the vectors in order
    are the whole output. *)
Theorem embedBatch_split {A} (texts : list string) (data : list A) (dims : nat) :
  List.length data = (List.length texts * dims)%nat ->
  List.length (embedBatch_rows texts data dims) = List.length texts /\
  Forall (fun v => List.length v = dims) (embedBatch_rows texts data dims) /\
  List.concat (embedBatch_rows texts data dims) = data.
Proof.
  intros HL. unfold embedBatch_rows. split; [|split].
  - now rewrite length_map, length_seq.
  - apply Forall_forall. intros v Hv. apply in_map_iff in Hv as (i & <- & Hi).
    apply in_seq in Hi. unfold slice. rewrite length_firstn, length_skipn.
    assert (i * dims + dims <= List.length texts * dims)%nat.
    { replace (i * dims + dims)%nat with (S i * dims)%nat by lia.
      apply Nat.mul_le_mono_r. lia. }
    lia.
  - rewrite embedBatch_concat. cbn [Nat.mul]. rewrite skipn_O, <- HL. apply firstn_all.
Qed.

(** ** EmbeddingService: the model is loaded once *)

(** On a fresh service, any sequence of calls runs [_init] exactly once (on
    the first call) and never again: if the model fails to load, every
    [embed] call fails, later ones included; if it loads, every [embed]
    returns the extractor's output. *)
Theorem service_loads_once load extract (cs : list Service.call) :
  let '(s, outs) := Service.run load extract Service.fresh cs in
  s.(Service.init_calls) = (match cs with [] => 0 | _ => 1 end)%nat /\
  outs = map (fun t => if load then Some (extract t) else None) (Service.embed_texts cs).
Proof.
  assert (Gen : forall cs s, s.(Service.initPromise) = Some load ->
            let '(s', outs) := Service.run load extract s cs in
            s' = s /\
            outs = map (fun t => if load then Some (extract t) else None)
                       (Service.embed_texts cs)).
  { induction cs0 as [|[|t] rest IH]; intros s Hs; cbn [Service.run Service.embed_texts map].
    - auto.
    - unfold Service.warmUp, Service.start_init. rewrite Hs. now apply IH.
    - unfold Service.embed, Service.ensureReady, Service.start_init. rewrite Hs.
      cbv iota beta. rewrite Hs.
      specialize (IH s Hs). destruct (Service.run load extract s rest) as [s' rs].
      destruct IH as [-> ->]. split; [reflexivity|]. now destruct load. }
  destruct cs as [|[|t] cs]; cbn [Service.run Service.embed_texts map].
  - auto.
  - unfold Service.warmUp, Service.start_init. cbn [Service.initPromise Service.fresh].
    specialize (Gen cs {| Service.initPromise := Some load; Service.init_calls := 1 |}
                eq_refl).
    destruct (Service.run _ _ _ cs) as [s' rs]. destruct Gen as [-> ->]. auto.
  - unfold Service.embed, Service.ensureReady, Service.start_init.
    cbn [Service.initPromise Service.fresh Service.init_calls].
    specialize (Gen cs {| Service.initPromise := Some load; Service.init_calls := 1 |}
                eq_refl).
    destruct (Service.run _ _ _ cs) as [s' rs]. destruct Gen as [-> ->].
    split; [reflexivity|]. now destruct load.
Qed.

(** ** The BLOB encoding *)

Lemma word_roundtrip (w : Z) :
  (0 <= w < 2 ^ 32)%Z ->
  Z.lor (Z.lor (Z.land w 255) (Z.shiftl (Z.land (Z.shiftr w 8) 255) 8))
        (Z.lor (Z.shiftl (Z.land (Z.shiftr w 16) 255) 16)
               (Z.shiftl (Z.land (Z.shiftr w 24) 255) 24)) = w.
Proof.
  intros Hw. apply Z.bits_inj'. intros n Hn.
  change 255%Z with (Z.ones 8).
  rewrite !Z.lor_spec, !Z.shiftl_spec by lia.
  rewrite !Z.land_spec.
  destruct (Z.lt_ge_cases n 8) as [H8|H8].
  - rewrite (Z.testbit_neg_r _ (n - 8)) by lia.
    rewrite (Z.testbit_neg_r _ (n - 16)) by lia.
    rewrite (Z.testbit_neg_r _ (n - 24)) by lia.
    rewrite Z.ones_spec_low by lia. now rewrite !andb_true_r, !orb_false_r.
  - rewrite (Z.ones_spec_high 8 n) by lia. rewrite andb_false_r. simpl.
    rewrite Z.shiftr_spec by lia.
    destruct (Z.lt_ge_cases n 16) as [H16|H16].
    + rewrite Z.ones_spec_low by lia.
      rewrite (Z.testbit_neg_r _ (n - 16)) by lia.
      rewrite (Z.testbit_neg_r _ (n - 24)) by lia.
      rewrite andb_true_r. simpl. rewrite orb_false_r. f_equal; lia.
    + rewrite (Z.ones_spec_high 8 (n - 8)) by lia. rewrite andb_false_r. simpl.
      rewrite Z.shiftr_spec by lia.
      destruct (Z.lt_ge_cases n 24) as [H24|H24].
      * rewrite Z.ones_spec_low by lia.
        rewrite (Z.testbit_neg_r _ (n - 24)) by lia.
        rewrite andb_true_r, orb_false_r. f_equal; lia.
      * rewrite (Z.ones_spec_high 8 (n - 16)) by lia. rewrite andb_false_r. simpl.
        rewrite Z.shiftr_spec by lia.
        destruct (Z.lt_ge_cases n 32) as [H32|H32].
        -- rewrite Z.ones_spec_low by lia. rewrite andb_true_r. f_equal; lia.
        -- rewrite (Z.ones_spec_high 8 (n - 24)) by lia. rewrite andb_false_r.
           symmetry. apply Z.bits_above_log2; [lia|].
           destruct (Z.eq_dec w 0) as [->|Hnz]; [simpl; lia|].
           apply Z.log2_lt_pow2; [lia|].
           apply (Z.lt_le_trans _ (2 ^ 32)); [lia|]. apply Z.pow_le_mono_r; lia.
Qed.

Lemma float32ToBuffer_length (arr : list Z) :
  List.length (float32ToBuffer arr) = (4 * List.length arr)%nat.
Proof.
  induction arr as [|w arr IH]; [reflexivity|].
  cbn [float32ToBuffer flat_map word_bytes app List.length].
  fold (float32ToBuffer arr). rewrite IH. lia.
Qed.

Lemma read_words_roundtrip (arr extra : list Z) :
  Forall (fun w => (0 <= w < 2 ^ 32)%Z) arr ->
  read_words (List.length arr) (float32ToBuffer arr ++ extra) = arr.
Proof.
  induction 1 as [|w arr Hw _ IH]; [reflexivity|].
  cbn [List.length float32ToBuffer flat_map word_bytes app read_words].
  fold (float32ToBuffer arr). rewrite word_roundtrip by exact Hw. now rewrite IH.
Qed.

(** [bufferToFloat32] reads back what [float32ToBuffer] wrote: four bytes
    per element, each in [0, 256), decoded to the same 32-bit patterns, also
    when up to three stray bytes follow. *)
Theorem blob_roundtrip (arr : list Z) :
  Forall (fun w => (0 <= w < 2 ^ 32)%Z) arr ->
  List.length (float32ToBuffer arr) = (4 * List.length arr)%nat /\
  Forall (fun b => (0 <= b < 256)%Z) (float32ToBuffer arr) /\
  bufferToFloat32 (float32ToBuffer arr) = arr /\
  (forall extra, (List.length extra < 4)%nat ->
     bufferToFloat32 (float32ToBuffer arr ++ extra) = arr).
Proof.
  intros H.
  assert (Hx : forall extra, (List.length extra < 4)%nat ->
             bufferToFloat32 (float32ToBuffer arr ++ extra) = arr).
  { intros extra He. unfold bufferToFloat32.
    rewrite length_app, float32ToBuffer_length.
    replace ((4 * List.length arr + List.length extra) / 4)%nat with (List.length arr).
    - now apply read_words_roundtrip.
    - apply (Nat.div_unique _ 4 _ (List.length extra)); lia. }
  split; [apply float32ToBuffer_length|]. split; [|split; [|exact Hx]].
  - clear H Hx. induction arr as [|w arr IH]; [constructor|].
    cbn [float32ToBuffer flat_map]. fold (float32ToBuffer arr).
    apply Forall_app. split; [|exact IH].
    unfold word_bytes. change 255%Z with (Z.ones 8).
    repeat apply Forall_cons; try apply Forall_nil;
      rewrite Z.land_ones by lia; apply Z.mod_pos_bound; lia.
  - rewrite <- (app_nil_r (float32ToBuffer arr)). apply Hx. cbn. lia.
Qed.

(** ** cosineSimilarity: vectors of different lengths *)

Lemma fmul_nan_r x : fmul x S754_nan = S754_nan.
Proof. destruct x; reflexivity. Qed.
Lemma fadd_nan_r x : fadd x S754_nan = S754_nan.
Proof. destruct x; reflexivity. Qed.
Lemma fadd_nan_l x : fadd S754_nan x = S754_nan.
Proof. destruct x; reflexivity. Qed.

Lemma cos_loop_nan (a b : vec) i nA :
  exists nA', cos_loop a b i S754_nan nA S754_nan = (S754_nan, nA', S754_nan).
Proof.
  revert i nA. induction a as [|ai a IH]; intros i nA; cbn [cos_loop]; [eauto|].
  rewrite !fadd_nan_l.
  apply IH.
Qed.

Lemma cos_loop_short (a b : vec) i dot nA nB :
  (i <= List.length b)%nat -> (List.length b < i + List.length a)%nat ->
  exists nA', cos_loop a b i dot nA nB = (S754_nan, nA', S754_nan).
Proof.
  revert i dot nA nB.
  induction a as [|ai a IH]; intros i dot nA nB H0 H; cbn [cos_loop List.length] in *; [lia|].
  destruct (Nat.lt_ge_cases i (List.length b)) as [Hi|Hi].
  - apply IH; lia.
  - rewrite (nth_overflow b S754_nan Hi), !fmul_nan_r, !fadd_nan_r.
    apply cos_loop_nan.
Qed.

(** When [b] is shorter than [a], [cosineSimilarity a b] is NaN, whatever
    the values: [b[i]] past its end is [undefined]. *)
Theorem cosineSimilarity_short_nan (a b : vec) :
  (List.length b < List.length a)%nat -> cosineSimilarity a b = S754_nan.
Proof.
  intros H. unfold cosineSimilarity.
  destruct (cos_loop_short a b 0 fzero fzero fzero ltac:(lia) H) as (nA & ->).
  unfold fsqrt at 2. simpl SFsqrt. rewrite fmul_nan_r. reflexivity.
Qed.

Lemma cos_loop_firstn (a b : vec) i m dot nA nB :
  (i + List.length a <= m)%nat ->
  cos_loop a (firstn m b) i dot nA nB = cos_loop a b i dot nA nB.
Proof.
  revert i dot nA nB.
  induction a as [|ai a IH]; intros i dot nA nB H; cbn [cos_loop List.length] in *; [reflexivity|].
  assert (E : nth i (firstn m b) S754_nan = nth i b S754_nan).
  { destruct (Nat.lt_ge_cases i (List.length b)) as [Hi|Hi].
    - rewrite <- (firstn_skipn m b) at 2. rewrite app_nth1; [reflexivity|].
      rewrite length_firstn. lia.
    - rewrite !nth_overflow; [reflexivity|exact Hi|]. rewrite length_firstn. lia. }
  rewrite E. apply IH. lia.
Qed.

(** Only the first [a.length] components of [b] are read. *)
Theorem cosineSimilarity_prefix (a b : vec) :
  cosineSimilarity a b = cosineSimilarity a (firstn (List.length a) b).
Proof.
  unfold cosineSimilarity. rewrite cos_loop_firstn by lia. reflexivity.
Qed.

(** ** C1: the wildcard scope in store *)

(** C1 (code bug).  [store] has no wildcard check: [normaliseScope] keeps
    ["*"] and [store] treats it as an ordinary scope name.  A store with
    scope ["*"] never fails with an invalid-input error; once the embedding
    succeeds it fails only when no row matches the key and the id is taken,
    and it succeeds whenever the id is new.  A successful call returns the
    entry of a row of the new table whose scope is the literal string ["*"],
    holding the stored content and embedding, with [updated_at = now]. *)
Theorem store_wildcard_inserts_star_row embed st entry now :
  (forall st', store embed st (Some "*"%string) entry now <> (st', Err InvalidInput)) /\
  (forall v, embed entry.(new_content) = Some v ->
    (~ In entry.(new_id) (map id st) ->
       exists st' e, store embed st (Some "*"%string) entry now = (st', Ok e)) /\
    (forall st' e, store embed st (Some "*"%string) entry now = (st', Ok e) ->
       exists r, In r st' /\ r.(scope) = "*"%string /\ e = rowToEntry r /\
         r.(content) = entry.(new_content) /\ r.(embedding) = Some v /\
         r.(updated_at) = now)).
Proof.
  destruct (store_cases embed st (Some "*"%string) entry now)
    as [(E & Hs)|[(v & k & ex & E & K & F & Hs)|(v & E & K & [(X & Hs)|(X & Hs)])]];
    cbn [normaliseScope] in *; rewrite Hs.
  - split; [intros st' Eq; injection Eq as _ Eq; discriminate|].
    intros v Hv. congruence.
  - split; [intros st' Eq; discriminate|].
    intros v' Hv'. rewrite E in Hv'. injection Hv' as <-.
    split; [intros _; eauto|].
    intros st' e Eq. injection Eq as <- <-.
    apply find_some in F as (Hex & Pex).
    apply andb_true_iff in Pex as [Sex _]. apply String.eqb_eq in Sex.
    exists (updated_row ex k entry v now).
    split; [apply in_map_iff; exists ex; now rewrite String.eqb_refl|].
    repeat split; auto.
  - split; [intros st' Eq; injection Eq as _ Eq; discriminate|].
    intros v' Hv'. rewrite E in Hv'. injection Hv' as <-.
    split; [|intros st' e Eq; discriminate].
    intros Hid. exfalso. apply Hid.
    apply existsb_exists in X as (r & Hr & Er). apply String.eqb_eq in Er.
    rewrite <- Er. now apply in_map.
  - split; [intros st' Eq; discriminate|].
    intros v' Hv'. rewrite E in Hv'. injection Hv' as <-.
    split; [intros _; eauto|].
    intros st' e Eq. injection Eq as <- <-.
    eexists. split; [apply in_or_app; right; now left|].
    repeat split.
Qed.

End Proofs.

(* ================================================================== *)
(** * Witnesses *)

(** The tags of the sample inputs are ASCII, on which JS [toLowerCase]
    is [lower]. *)
#[local] Instance ascii_toLowerCase : ToLowerCase := lower.

(* ------------------------------------------------------------------ *)
(** ** Witnesses: the theorems applied at concrete inputs *)

Lemma retrieve_memories_ranked_top_k_witness :
  retrieve_memories Sample.embed_one Sample.table "q" None [] (Some 1%Z)
    = Ok [rowToEntry Sample.newer] /\
  exists queryVec lim top rest,
    Sample.embed_one "q"%string = Some queryVec /\
    (1 <= lim <= 100)%Z /\ (Some 1%Z = None -> lim = 20%Z) /\
    top = ranked queryVec Sample.table None [] lim /\
    [rowToEntry Sample.newer] = map (fun s => rowToEntry (fst s)) top /\
    Permutation (score_rows queryVec [] (fetch None Sample.table)) (top ++ rest) /\
    List.length top =
      Nat.min (Z.to_nat lim) (List.length (score_rows queryVec [] (fetch None Sample.table))) /\
    (forall i j s1 s2, nth_error top i = Some s1 -> nth_error top j = Some s2 ->
       snd s2 < snd s1 -> (i < j)%nat) /\
    (forall s1 s2, In s1 top -> In s2 rest -> snd s2 <= snd s1).
Proof.
  split; [vm_compute; reflexivity|].
  apply (retrieve_memories_ranked_top_k Sample.embed_one Sample.table "q" None []
           (Some 1%Z)).
  vm_compute; reflexivity.
Defined.

Lemma sample_table_ids_distinct : NoDup (map id Sample.table).
Proof.
  vm_compute. repeat constructor; simpl; intuition discriminate.
Qed.

Lemma scope_isolation_and_resolution_witness :
  NoDup (map id Sample.table) /\
  ~ In (rowToEntry Sample.legacy) (list_ Sample.table None []) /\
  In (rowToEntry Sample.legacy) (list_ Sample.table (Some "*"%string) []).
Proof.
  split; [exact sample_table_ids_distinct|].
  destruct (scope_isolation_and_resolution Sample.embed_one Sample.table
              sample_table_ids_distinct) as (Hiso & Hwild & _).
  split.
  - apply (Hiso Sample.legacy None [] "q"%string None []);
      [simpl; auto|reflexivity|discriminate].
  - apply (Hwild Sample.legacy "q"%string 0%Z [] [fone]). simpl; auto.
Defined.

Lemma legacy_rows_listed_never_retrieved_witness :
  NoDup (map id Sample.table) /\ In Sample.legacy Sample.table /\
  Sample.legacy.(embedding) = None /\
  In (rowToEntry Sample.legacy) (list_ Sample.table (Some "app"%string) []) /\
  (forall out, retrieve Sample.embed_one Sample.table (Some "app"%string) "q" [] None
                 = Ok out -> ~ In (rowToEntry Sample.legacy) out).
Proof.
  assert (Hin : In Sample.legacy Sample.table) by (simpl; auto).
  destruct (legacy_rows_listed_never_retrieved Sample.embed_one Sample.table
              Sample.legacy sample_table_ids_distinct Hin eq_refl) as [Hret Hlist].
  split; [exact sample_table_ids_distinct|]. split; [exact Hin|].
  split; [reflexivity|]. split.
  - apply Hlist; [right; reflexivity|reflexivity].
  - intros out. apply Hret.
Defined.

Lemma store_upserts_in_place_witness :
  NoDup (map id Sample.keyed_table) /\
  filter (fun r => String.eqb r.(scope) (normaliseScope (Some "app"%string))
                   && key_matches r.(key) "validation-lib") Sample.keyed_table
    = [Sample.keyed] /\
  exists st' e,
    store Sample.embed_one Sample.keyed_table (Some "app"%string) Sample.update
      "2026-01-05T00:00:00.000Z" = (st', Ok e) /\
    List.length st' = List.length Sample.keyed_table.
Proof.
  assert (ND : NoDup (map id Sample.keyed_table))
    by (vm_compute; repeat constructor; simpl; intuition discriminate).
  assert (Hf : filter (fun r => String.eqb r.(scope) (normaliseScope (Some "app"%string))
                   && key_matches r.(key) "validation-lib") Sample.keyed_table
               = [Sample.keyed]) by (vm_compute; reflexivity).
  split; [exact ND|]. split; [exact Hf|].
  destruct (store_upserts_in_place Sample.embed_one Sample.keyed_table
              (Some "app"%string) Sample.update "2026-01-05T00:00:00.000Z"
              "validation-lib" Sample.keyed [fone] ND eq_refl
              ltac:(discriminate) eq_refl Hf)
    as (st' & e & Hs & Hl & _).
  exists st', e. auto.
Defined.

Lemma store_wildcard_inserts_star_row_witness :
  Sample.embed_one Sample.note.(new_content) = Some [fone] /\
  ~ In Sample.note.(new_id) (map id Sample.keyed_table) /\
  exists st' e r,
    store Sample.embed_one Sample.keyed_table (Some "*"%string) Sample.note "t"
      = (st', Ok e) /\
    In r st' /\ r.(scope) = "*"%string /\ e = rowToEntry r.
Proof.
  destruct (proj2 (store_wildcard_inserts_star_row Sample.embed_one
                     Sample.keyed_table Sample.note "t") [fone] eq_refl)
    as [Hok Hrow].
  assert (Hid : ~ In Sample.note.(new_id) (map id Sample.keyed_table))
    by (vm_compute; intuition discriminate).
  split; [reflexivity|]. split; [exact Hid|].
  destruct (Hok Hid) as (st' & e & Hs).
  destruct (Hrow st' e Hs) as (r & Hr & Sr & Er & _).
  exists st', e, r. auto.
Defined.

Lemma renameProject_reserved_names_ordinary_witness :
  (In "app"%string ["*"; "global"]%string \/ In "*"%string ["*"; "global"]%string) /\
  renameProject Sample.table "app" "*" =
    (map (move_scope "app" "*") Sample.table, Ok true) /\
  map (move_scope "app" "*") Sample.table <> Sample.table.
Proof.
  assert (Hr : In "app"%string ["*"; "global"]%string \/
               In "*"%string ["*"; "global"]%string) by (right; left; reflexivity).
  destruct (renameProject_reserved_names_ordinary Sample.table "app" "*" Hr)
    as (_ & _ & H3).
  destruct (H3 ltac:(vm_compute; discriminate) ltac:(vm_compute; reflexivity))
    as (Hm & _ & _ & Hne).
  auto.
Defined.

(** C8 (counterexample).  Ties are not left in table order: in the table
    [[older; newer]] both rows have the same embedding, hence the same score,
    and [older] comes first in the table, yet retrieve returns [newer]
    first. *)
Lemma retrieve_ties_not_in_table_order :
  exists embed st r1 r2 v out,
    st = [r1; r2] /\ r1.(embedding) = Some v /\ r2.(embedding) = Some v /\
    retrieve embed st None "q"%string [] None = Ok out /\
    out = [rowToEntry r2; rowToEntry r1] /\ rowToEntry r1 <> rowToEntry r2.
Proof.
  exists Sample.embed_one, [Sample.older; Sample.newer], Sample.older, Sample.newer,
    [fone], [rowToEntry Sample.newer; rowToEntry Sample.older].
  repeat split; try reflexivity; try (vm_compute; reflexivity); discriminate.
Qed.

Lemma retrieve_ties_most_recent_first_witness :
  retrieve Sample.embed_one Sample.table None "q" [] None
    = Ok [rowToEntry Sample.newer; rowToEntry Sample.older] /\
  exists queryVec top,
    Sample.embed_one "q"%string = Some queryVec /\
    top = ranked queryVec Sample.table None [] 20 /\
    [rowToEntry Sample.newer; rowToEntry Sample.older]
      = map (fun s => rowToEntry (fst s)) top /\
    (forall i j s1 s2, nth_error top i = Some s1 -> nth_error top j = Some s2 ->
       (i < j)%nat -> snd s1 == snd s2 ->
       String.leb (fst s2).(updated_at) (fst s1).(updated_at) = true).
Proof.
  split; [vm_compute; reflexivity|].
  apply (retrieve_ties_most_recent_first Sample.embed_one Sample.table None "q" []
           None).
  vm_compute; reflexivity.
Defined.
(* ------------------------------------------------------------------ *)
(** ** Witnesses of the further properties *)

Lemma store_error_leaves_table_witness :
  store Sample.embed_one Sample.table None
    {| new_id := "a"; new_key := None; new_content := "x"; new_tags := [] |} "t"
    = (Sample.table, Err ConstraintViolation) /\
  In "a"%string (map id Sample.table).
Proof.
  assert (H : store Sample.embed_one Sample.table None
                {| new_id := "a"; new_key := None; new_content := "x"; new_tags := [] |} "t"
              = (Sample.table, Err ConstraintViolation)) by (vm_compute; reflexivity).
  split; [exact H|].
  destruct (store_error_leaves_table _ _ _ _ _ _ _ H) as [_ [[E _]|[_ Hin]]];
    [discriminate|exact Hin].
Defined.

Lemma store_then_list_witness :
  exists st' e,
    store Sample.embed_one Sample.table None Sample.note "t" = (st', Ok e) /\
    In e (list_ st' None []).
Proof.
  destruct (store Sample.embed_one Sample.table None Sample.note "t") as [st' [e|err]] eqn:H;
    [|vm_compute in H; discriminate].
  exists st', e. split; [reflexivity|].
  destruct (store_then_list _ _ _ _ _ _ _ H) as (r & _ & _ & _ & _ & _ & Hl). exact Hl.
Defined.

Lemma store_then_delete_witness :
  ~ In Sample.note.(new_id) (map id Sample.table) /\
  exists st' e,
    store Sample.embed_one Sample.table None Sample.note "t" = (st', Ok e) /\
    List.length st' = 4%nat /\
    delete st' None Sample.note.(new_id) = (Sample.table, Ok true).
Proof.
  assert (Hn : ~ In Sample.note.(new_id) (map id Sample.table))
    by (vm_compute; intuition discriminate).
  split; [exact Hn|].
  exact (store_then_delete Sample.embed_one Sample.table None Sample.note "t" [fone]
           eq_refl ltac:(intros k Hk; discriminate) Hn).
Defined.

Lemma reachable_well_formed_witness :
  reachable Sample.embed_one
    (fst (exec Sample.embed_one [] (OpStore None Sample.note "t"))) /\
  well_formed (fst (exec Sample.embed_one [] (OpStore None Sample.note "t"))).
Proof.
  assert (H : reachable Sample.embed_one
                (fst (exec Sample.embed_one [] (OpStore None Sample.note "t"))))
    by (apply reach_step, reach_empty).
  split; [exact H|]. exact (reachable_well_formed _ _ H).
Defined.

Lemma renameProject_roundtrip_witness :
  renameProject Sample.table "app" "proj"
    = (fst (renameProject Sample.table "app" "proj"), Ok true) /\
  renameProject (fst (renameProject Sample.table "app" "proj")) "proj" "app"
    = (Sample.table, Ok true).
Proof.
  assert (H : renameProject Sample.table "app" "proj"
                = (fst (renameProject Sample.table "app" "proj"), Ok true))
    by (vm_compute; reflexivity).
  split; [exact H|]. exact (renameProject_roundtrip _ _ _ _ H).
Defined.

Lemma retrieve_length_witness :
  exists out,
    retrieve Sample.embed_one Sample.table None "q" [] (Some (-1)%Z) = Ok out /\
    List.length out = 1%nat.
Proof.
  destruct (retrieve_length Sample.embed_one Sample.table None "q" [] (-1)%Z [fone]
              eq_refl) as (out & H & L).
  exists out. split; [exact H|]. rewrite L. vm_compute. reflexivity.
Defined.

Lemma embedBatch_split_witness :
  embedBatch_rows ["a"; "b"]%string [1; 2; 3; 4; 5; 6]%nat 3
    = [[1; 2; 3]; [4; 5; 6]]%nat /\
  List.concat (embedBatch_rows ["a"; "b"]%string [1; 2; 3; 4; 5; 6]%nat 3)
    = [1; 2; 3; 4; 5; 6]%nat.
Proof.
  split; [reflexivity|].
  exact (proj2 (proj2 (embedBatch_split ["a"; "b"]%string [1; 2; 3; 4; 5; 6]%nat 3
                         eq_refl))).
Defined.

Lemma blob_roundtrip_witness :
  float32ToBuffer [1065353216%Z] = [0; 0; 128; 63]%Z /\
  bufferToFloat32 ([0; 0; 128; 63] ++ [7])%Z = [1065353216%Z].
Proof.
  split; [vm_compute; reflexivity|].
  assert (H : Forall (fun w => (0 <= w < 2 ^ 32)%Z) [1065353216%Z])
    by (constructor; [lia|constructor]).
  destruct (blob_roundtrip _ H) as (_ & _ & _ & Hx).
  exact (Hx [7%Z] ltac:(cbn; lia)).
Defined.

Lemma cosineSimilarity_short_nan_witness :
  cosineSimilarity Sample.ones3 [fone; fone] = S754_nan.
Proof.
  apply cosineSimilarity_short_nan. cbn. lia.
Defined.
